(** * DirectionalIdleAnimations: idle state machine and notetag parser

    A shallow embedding of [DirectionalIdleAnimations.js].

    Modelling conventions.
    - JavaScript Numbers that carry real quantities (the idle timer, the
      min/max idle times, the configured probability, the values returned by
      [Math.random()] and everything computed from them) are IEEE-754
      binary64 values: [spec_float] with precision 53 and maximal exponent
      1024, operated on with the round-to-nearest-even operations of
      [SpecFloat].
    - Numbers that only ever hold integers (sprite patterns, frame counters,
      directions, wait counts, parsed weights) are [Z]; they are converted
      with [of_Z] where the code mixes them with real quantities.  This is
      exact for magnitudes below 2^53.
    - Strings are [string]s of 8-bit characters read as code units 0..255.
    - [Math.random()] is an input of the tick: the value each call returns. *)

From Stdlib Require Import ZArith List String Ascii Bool Lia.
From Stdlib Require Import Floats.SpecFloat.
Import ListNotations.

Local Open Scope Z_scope.

(** ** JavaScript numbers *)

Module JsNum.

Definition num := spec_float.

Definition prec : Z := 53.
Definition emax : Z := 1024.

Definition of_Z (z : Z) : num := binary_normalize prec emax z 0 false.

Definition add : num -> num -> num := SFadd prec emax.
Definition sub : num -> num -> num := SFsub prec emax.
Definition mul : num -> num -> num := SFmul prec emax.
Definition div : num -> num -> num := SFdiv prec emax.

(** [a < b], [a <= b], [a > b], [a >= b]; every comparison with NaN is
    false. *)
Definition lt (a b : num) : bool := SFltb a b.
Definition le (a b : num) : bool := SFleb a b.
Definition gt (a b : num) : bool := SFltb b a.
Definition ge (a b : num) : bool := SFleb b a.

Definition zero : num := S754_zero false.

End JsNum.

Import JsNum.

(** ** Data model *)

(** One entry of [_idleAnimations]:
    [{ name, startPattern, endPattern, probability }]. *)
Record IdleAnim := mkIdleAnim {
  name : string;
  startPattern : Z;
  endPattern : Z;
  probability : Z
}.

(** The plugin parameters read once when the plugin is loaded. *)
Record Params := mkParams {
  DEFAULT_MIN_IDLE : num;
  DEFAULT_MAX_IDLE : num;
  DEFAULT_PROB : num
}.

(** The fields of a [Game_Character] the plugin reads or writes.  The first
    three belong to the engine, the others are added by the plugin. *)
Record Character := mkCharacter {
  characterName : string;
  pattern : Z;
  direction : Z;
  idleAnimations : list IdleAnim;
  isIdling : bool;
  idleTimer : num;
  idleMinTime : num;
  idleMaxTime : num;
  currentIdleAnim : option IdleAnim;
  originalPattern : Z;
  originalCharacterName : string;
  idleFacingDirection : Z;
  idleFrameCount : Z;
  idleAnimLength : Z
}.

(** What one call of [updateIdle] observes from its environment: the result
    of [isMoving()], the value of [_waitCount], and the values the two calls
    of [Math.random()] return when they are reached. *)
Record Tick := mkTick {
  moving : bool;
  waitCount : Z;
  rndRoll : num;
  rndPick : num
}.

(** ** The idle state machine *)

(** [anim.probability || 100]: 0 is falsy. *)
Definition weight (anim : IdleAnim) : Z :=
  if probability anim =? 0 then 100 else probability anim.

(** The [reduce] of [startIdleAnimation]. *)
Definition totalWeight (anims : list IdleAnim) : num :=
  fold_left (fun sum anim => add sum (of_Z (weight anim))) anims zero.

(** The [for ... of] loop of [startIdleAnimation]: [Some anim] when the loop
    leaves through [break], [None] when it runs off the end of the list. *)
Fixpoint walk (anims : list IdleAnim) (rand : num) : option IdleAnim :=
  match anims with
  | [] => None
  | anim :: rest =>
      let rand' := sub rand (of_Z (weight anim)) in
      if le rand' zero then Some anim else walk rest rand'
  end.

Definition chooseAnim (anims : list IdleAnim) (first : IdleAnim) (u : num)
  : IdleAnim :=
  let rand := mul u (totalWeight anims) in
  match walk anims rand with
  | Some anim => anim
  | None => first
  end.

Definition startIdleAnimation (u : num) (c : Character) : Character :=
  match idleAnimations c with
  | [] => c
  | first :: _ =>
      let chosenAnim := chooseAnim (idleAnimations c) first u in
      let patternCount := endPattern chosenAnim - startPattern chosenAnim + 1 in
      {| characterName := name chosenAnim;
         pattern := startPattern chosenAnim;
         direction := direction c;
         idleAnimations := idleAnimations c;
         isIdling := true;
         idleTimer := idleTimer c;
         idleMinTime := idleMinTime c;
         idleMaxTime := idleMaxTime c;
         currentIdleAnim := Some chosenAnim;
         originalPattern := pattern c;
         originalCharacterName := characterName c;
         idleFacingDirection := direction c;
         idleFrameCount := 0;
         idleAnimLength := patternCount * 15 |}
  end.

(** [updateIdleAnimationFrame], called with [_currentIdleAnim] equal to
    [cur]. *)
Definition updateIdleAnimationFrame (cur : IdleAnim) (c : Character)
  : Character :=
  let count := idleFrameCount c + 1 in
  if idleAnimLength c <=? count then
    {| characterName := originalCharacterName c;
       pattern := originalPattern c;
       direction := direction c;
       idleAnimations := idleAnimations c;
       isIdling := false;
       idleTimer := zero;
       idleMinTime := idleMinTime c;
       idleMaxTime := idleMaxTime c;
       currentIdleAnim := None;
       originalPattern := originalPattern c;
       originalCharacterName := originalCharacterName c;
       idleFacingDirection := idleFacingDirection c;
       idleFrameCount := count;
       idleAnimLength := idleAnimLength c |}
  else
    let patternCount := endPattern cur - startPattern cur + 1 in
    let framePerPattern := 15 in
    let patternIndex := Z.rem (count / framePerPattern) patternCount in
    {| characterName := characterName c;
       pattern := startPattern cur + patternIndex;
       direction := idleFacingDirection c;
       idleAnimations := idleAnimations c;
       isIdling := isIdling c;
       idleTimer := idleTimer c;
       idleMinTime := idleMinTime c;
       idleMaxTime := idleMaxTime c;
       currentIdleAnim := currentIdleAnim c;
       originalPattern := originalPattern c;
       originalCharacterName := originalCharacterName c;
       idleFacingDirection := idleFacingDirection c;
       idleFrameCount := count;
       idleAnimLength := idleAnimLength c |}.

(** [1/60], the seconds one frame adds to the timer. *)
Definition frameTime : num := div (of_Z 1) (of_Z 60).

(** The assignment [this._idleTimer = x]. *)
Definition withTimer (x : num) (c : Character) : Character :=
  {| characterName := characterName c;
     pattern := pattern c;
     direction := direction c;
     idleAnimations := idleAnimations c;
     isIdling := isIdling c;
     idleTimer := x;
     idleMinTime := idleMinTime c;
     idleMaxTime := idleMaxTime c;
     currentIdleAnim := currentIdleAnim c;
     originalPattern := originalPattern c;
     originalCharacterName := originalCharacterName c;
     idleFacingDirection := idleFacingDirection c;
     idleFrameCount := idleFrameCount c;
     idleAnimLength := idleAnimLength c |}.

Definition updateIdle (p : Params) (t : Tick) (c : Character) : Character :=
  if moving t || (0 <? waitCount t) then
    {| characterName := characterName c;
       pattern := pattern c;
       direction := direction c;
       idleAnimations := idleAnimations c;
       isIdling := false;
       idleTimer := zero;
       idleMinTime := idleMinTime c;
       idleMaxTime := idleMaxTime c;
       currentIdleAnim := None;
       originalPattern := originalPattern c;
       originalCharacterName := originalCharacterName c;
       idleFacingDirection := idleFacingDirection c;
       idleFrameCount := idleFrameCount c;
       idleAnimLength := idleAnimLength c |}
  else if negb (isIdling c) then
    let c1 := withTimer (add (idleTimer c) frameTime) c in
    if ge (idleTimer c1) (idleMinTime c1) then
      let roll := mul (rndRoll t) (of_Z 100) in
      let maxTimeExceeded := gt (idleTimer c1) (idleMaxTime c1) in
      if maxTimeExceeded || lt roll (DEFAULT_PROB p) then
        startIdleAnimation (rndPick t) c1
      else c1
    else c1
  else
    match currentIdleAnim c with
    | Some cur => updateIdleAnimationFrame cur c
    | None => c
    end.

(** The state after a sequence of calls of [updateIdle], one per frame. *)
Fixpoint run (p : Params) (ts : list Tick) (c : Character) : Character :=
  match ts with
  | [] => c
  | t :: ts' => run p ts' (updateIdle p t c)
  end.

(** [initMembers]: the plugin fields of a new character. *)
Definition initMembers (p : Params) (sheet : string) (pat dir : Z) : Character :=
  {| characterName := sheet;
     pattern := pat;
     direction := dir;
     idleAnimations := [];
     isIdling := false;
     idleTimer := zero;
     idleMinTime := DEFAULT_MIN_IDLE p;
     idleMaxTime := DEFAULT_MAX_IDLE p;
     currentIdleAnim := None;
     originalPattern := 0;
     originalCharacterName := EmptyString;
     idleFacingDirection := 2;
     idleFrameCount := 0;
     idleAnimLength := 0 |}.

Definition setCharacterIdleData (idleAnims : list IdleAnim)
  (minTime maxTime : option num) (c : Character) : Character :=
  {| characterName := characterName c;
     pattern := pattern c;
     direction := direction c;
     idleAnimations := idleAnims;
     isIdling := isIdling c;
     idleTimer := idleTimer c;
     idleMinTime := match minTime with Some m => m | None => idleMinTime c end;
     idleMaxTime := match maxTime with Some m => m | None => idleMaxTime c end;
     currentIdleAnim := currentIdleAnim c;
     originalPattern := originalPattern c;
     originalCharacterName := originalCharacterName c;
     idleFacingDirection := idleFacingDirection c;
     idleFrameCount := idleFrameCount c;
     idleAnimLength := idleAnimLength c |}.

(** ** Strings *)

Local Open Scope string_scope.
Local Open Scope Z_scope.

Definition code (a : ascii) : Z := Z.of_N (N_of_ascii a).

(** White space and line terminators among the code units 0..255: the
    characters [\s] matches and [trim] removes. *)
Definition isSpace (a : ascii) : bool :=
  ((9 <=? code a) && (code a <=? 13)) || (code a =? 32) || (code a =? 160).

(** [\d] and [[0-9]]. *)
Definition isDigit (a : ascii) : bool := (48 <=? code a) && (code a <=? 57).

(** [[0-9.]]. *)
Definition isDigitOrDot (a : ascii) : bool := isDigit a || (code a =? 46).

(** [[^,]]. *)
Definition notComma (a : ascii) : bool := negb (code a =? 44).

(** Canonical form of a character under the [i] flag. *)
Definition upper (a : ascii) : ascii :=
  if (97 <=? code a) && (code a <=? 122)
  then ascii_of_N (N_of_ascii a - 32) else a.

Definition eq_ci (a b : ascii) : bool := Ascii.eqb (upper a) (upper b).

Fixpoint trimStart (s : string) : string :=
  match s with
  | String a s' => if isSpace a then trimStart s' else s
  | EmptyString => EmptyString
  end.

Fixpoint trimEnd (s : string) : string :=
  match s with
  | String a s' =>
      match trimEnd s' with
      | EmptyString => if isSpace a then EmptyString else String a EmptyString
      | r => String a r
      end
  | EmptyString => EmptyString
  end.

Definition trim (s : string) : string := trimEnd (trimStart s).

(** [s.split('\n')]. *)
Fixpoint split_lines (s : string) : list string :=
  match s with
  | EmptyString => [EmptyString]
  | String a s' =>
      if code a =? 10 then EmptyString :: split_lines s'
      else match split_lines s' with
           | l :: ls => String a l :: ls
           | [] => [String a EmptyString]
           end
  end.

(** ** Regular expressions

    The constructs the three patterns of [loadIdleNotetags] are built from,
    matched the way a backtracking engine does: greedy quantifiers, the
    alternatives tried in order, the first success kept. *)

Inductive regex :=
| Chr (c : ascii)                 (* a literal character, under the i flag *)
| Star (cls : ascii -> bool)      (* cls*  *)
| Plus (cls : ascii -> bool)      (* cls+  *)
| Group (n : nat) (r : regex)     (* ( r ), the n-th capturing group *)
| Opt (r : regex)                 (* (?: r )? *)
| Seq (r1 r2 : regex).

Definition captures := nat -> option string.

Definition noCaptures : captures := fun _ => None.

Definition setCapture (n : nat) (v : string) (caps : captures) : captures :=
  fun i => if Nat.eqb i n then Some v else caps i.

(** The part of [s] in front of its suffix [s']. *)
Definition consumed (s s' : string) : string :=
  substring 0 (String.length s - String.length s') s.

Definition cont := string -> captures -> option captures.

Fixpoint star (cls : ascii -> bool) (s : string) (caps : captures) (k : cont)
  : option captures :=
  match s with
  | String a s' =>
      if cls a then
        match star cls s' caps k with
        | Some res => Some res
        | None => k s caps
        end
      else k s caps
  | EmptyString => k s caps
  end.

Fixpoint rmatch (r : regex) (s : string) (caps : captures) (k : cont)
  : option captures :=
  match r with
  | Chr c =>
      match s with
      | String a s' => if eq_ci a c then k s' caps else None
      | EmptyString => None
      end
  | Star cls => star cls s caps k
  | Plus cls =>
      match s with
      | String a s' => if cls a then star cls s' caps k else None
      | EmptyString => None
      end
  | Group n r' =>
      rmatch r' s caps (fun s' caps' => k s' (setCapture n (consumed s s') caps'))
  | Opt r' =>
      match rmatch r' s caps k with
      | Some res => Some res
      | None => k s caps
      end
  | Seq r1 r2 => rmatch r1 s caps (fun s' caps' => rmatch r2 s' caps' k)
  end.

Definition accept : cont := fun _ caps => Some caps.

(** [s.match(r)] for a pattern without the [g] flag: the leftmost match. *)
Fixpoint search (r : regex) (s : string) : option captures :=
  match rmatch r s noCaptures accept with
  | Some caps => Some caps
  | None =>
      match s with
      | String _ s' => search r s'
      | EmptyString => None
      end
  end.

(** [RegExp.$n] after a successful match: the empty string for a group that
    took no part in it. *)
Definition dollar (caps : captures) (n : nat) : string :=
  match caps n with
  | Some v => v
  | None => EmptyString
  end.

(** A run of literal characters followed by [r]. *)
Fixpoint lits (s : string) (r : regex) : regex :=
  match s with
  | String a s' => Seq (Chr a) (lits s' r)
  | EmptyString => r
  end.

(** [/<IdleAnimMinTime:\s*([0-9.]+)>/i] *)
Definition reMinTime : regex :=
  lits "<IdleAnimMinTime:"
    (Seq (Star isSpace) (Seq (Group 1 (Plus isDigitOrDot)) (Chr ">"))).

(** [/<IdleAnimMaxTime:\s*([0-9.]+)>/i] *)
Definition reMaxTime : regex :=
  lits "<IdleAnimMaxTime:"
    (Seq (Star isSpace) (Seq (Group 1 (Plus isDigitOrDot)) (Chr ">"))).

(** [(?:,\s*(\d+))?], the end of the next pattern. *)
Definition reProbability : regex :=
  Opt (Seq (Chr ",") (Seq (Star isSpace) (Group 4 (Plus isDigit)))).

(** [/<IdleAnim:\s*([^,]+),\s*(\d+),\s*(\d+)(?:,\s*(\d+))?/i] *)
Definition reIdleAnim : regex :=
  lits "<IdleAnim:"
    (Seq (Star isSpace)
    (Seq (Group 1 (Plus notComma))
    (Seq (Chr ",")
    (Seq (Star isSpace)
    (Seq (Group 2 (Plus isDigit))
    (Seq (Chr ",")
    (Seq (Star isSpace)
    (Seq (Group 3 (Plus isDigit)) reProbability)))))))).

(** ** Number parsing *)

Definition digitVal (a : ascii) : Z := code a - 48.

(** The value of the decimal digits [s] starts with, after the digits
    already read as [acc]. *)
Fixpoint digitsValue (acc : Z) (s : string) : Z :=
  match s with
  | String a s' => if isDigit a then digitsValue (10 * acc + digitVal a) s' else acc
  | EmptyString => acc
  end.

(** [parseInt(s)] for the strings the parser passes, a run of decimal digits
    or the empty string: [None] is NaN.  The result is the integer the digits
    denote; the code's result is the binary64 number nearest to it, which is
    that integer as long as it is below 2^53 ([exactField]).  For longer
    runs the code stores a rounded number, or Infinity from about 309 digits
    on, which [Z] does not show: the statements about the numbers read from
    a tag are made for fields below 2^53, and the reachable states take
    their definitions in the range [exactAnim]. *)
Definition parseInt (s : string) : option Z :=
  match s with
  | String a _ => if isDigit a then Some (digitsValue 0 s) else None
  | EmptyString => None
  end.

(** [parseInt(s) || 100]: NaN and 0 are falsy. *)
Definition orHundred (v : option Z) : Z :=
  match v with
  | Some z => if z =? 0 then 100 else z
  | None => 100
  end.

Fixpoint spanDigits (s : string) : string * string :=
  match s with
  | String a s' =>
      if isDigit a then let (d, r) := spanDigits s' in (String a d, r)
      else (EmptyString, s)
  | EmptyString => (EmptyString, EmptyString)
  end.

Fixpoint pow10 (k : nat) : positive :=
  match k with
  | O => 1%positive
  | S k' => (10 * pow10 k')%positive
  end.

(** The binary64 value nearest to [m / 10^k]: one correctly rounded division
    of the two integers. *)
Definition decimal (m : Z) (k : nat) : num :=
  match m with
  | Z0 => zero
  | Zpos m' => div (S754_finite false m' 0) (S754_finite false (pow10 k) 0)
  | Zneg _ => S754_nan
  end.

(** [parseFloat(s)] for the strings the parser passes, runs of digits and
    dots: the longest prefix of the form digits, digits [.] digits or
    [.] digits is read, and NaN is returned when it holds no digit. *)
Definition parseFloat (s : string) : num :=
  let (ip, r) := spanDigits s in
  let fp := match r with
            | String a r' => if code a =? 46 then fst (spanDigits r') else EmptyString
            | EmptyString => EmptyString
            end in
  match ip ++ fp with
  | EmptyString => S754_nan
  | ds => decimal (digitsValue 0 ds) (String.length fp)
  end.

(** ** Notetag parsing *)

(** The locals [idleAnims], [minTime] and [maxTime] of [loadIdleNotetags];
    [None] is [undefined]. *)
Record Notetags := mkNotetags {
  idleAnims : list IdleAnim;
  minTime : option num;
  maxTime : option num
}.

(** The body of the loop over the lines, [line] not yet trimmed.  Groups 2
    and 3 of [reIdleAnim] hold at least one digit, so [parseInt] of them is
    not NaN (lemma [reIdleAnim_groups]); the model leaves the tags unchanged
    in that unreachable case. *)
(** [idleAnims.push(anim)]. *)
Definition pushAnim (anim : IdleAnim) (acc : Notetags) : Notetags :=
  mkNotetags (idleAnims acc ++ [anim]) (minTime acc) (maxTime acc).

Definition parseLine (acc : Notetags) (line : string) : Notetags :=
  let line := trim line in
  match search reMinTime line with
  | Some caps => mkNotetags (idleAnims acc) (Some (parseFloat (dollar caps 1))) (maxTime acc)
  | None =>
  match search reMaxTime line with
  | Some caps => mkNotetags (idleAnims acc) (minTime acc) (Some (parseFloat (dollar caps 1)))
  | None =>
  match search reIdleAnim line with
  | Some caps =>
      let name := trim (dollar caps 1) in
      match parseInt (dollar caps 2), parseInt (dollar caps 3) with
      | Some start, Some end_ =>
          let prob := orHundred (parseInt (dollar caps 4)) in
          pushAnim (mkIdleAnim name start end_ prob) acc
      | _, _ => acc
      end
  | None => acc
  end end end.

(** The locals before the loop. *)
Definition noTags : Notetags := mkNotetags [] None None.

Definition parseNote (note : string) : Notetags :=
  fold_left parseLine (split_lines note) noTags.

(** The line feed, the separator of [split]. *)
Definition nl : string := String (ascii_of_N 10) EmptyString.

(** [loadIdleNotetags(note)]; the empty string is falsy. *)
Definition loadIdleNotetags (note : string) (c : Character) : Character :=
  match note with
  | EmptyString => c
  | _ =>
      let tags := parseNote note in
      setCharacterIdleData (idleAnims tags) (minTime tags) (maxTime tags) c
  end.

(** ** Notions used in the statements *)

(** A frame on which the character neither moves nor waits. *)
Definition stationary (t : Tick) : Prop :=
  moving t = false /\ waitCount t <= 0.

(** The value [Math.random() * 100] of the frame. *)
Definition roll (t : Tick) : num := mul (rndRoll t) (of_Z 100).

(** The timer after [n] additions of [1/60]. *)
Fixpoint timerAfter (n : nat) (t0 : num) : num :=
  match n with
  | O => t0
  | S n' => add (timerAfter n' t0) frameTime
  end.

(** The running remainder of the weighted selection once the weights of the
    definitions at positions 0..i have been subtracted from [rand], one
    after the other. *)
Fixpoint remainder (anims : list IdleAnim) (rand : num) (i : nat) : num :=
  match anims with
  | [] => rand
  | anim :: rest =>
      let rand' := sub rand (of_Z (weight anim)) in
      match i with
      | O => rand'
      | S i' => remainder rest rand' i'
      end
  end.

(** ** Concrete inputs *)

(** The plugin parameters at their defaults: 5.0, 10.0 and 80. *)
Definition defaultParams : Params := mkParams (of_Z 5) (of_Z 10) (of_Z 80).

Definition animA : IdleAnim := mkIdleAnim "A" 0 2 100.

(** A character showing sheet [Hero], pattern 1, facing down, with the one
    animation [animA] and the default times. *)
Definition hero : Character :=
  setCharacterIdleData [animA] None None (initMembers defaultParams "Hero" 1 2).

(** A frame without motion or wait on which both calls of [Math.random()]
    return 0.5. *)
Definition half : num := div (of_Z 1) (of_Z 2).
Definition stillTick : Tick := mkTick false 0 half half.

(** A frame on which the character moves. *)
Definition walkTick : Tick := mkTick true 0 half half.

(** Plugin parameters with probability 0. *)
Definition zeroProbParams : Params := mkParams (of_Z 5) (of_Z 10) zero.

(** [hero] with [idleMinTime] 0.05 above [idleMaxTime] 0.01. *)
Definition invertedHero : Character :=
  setCharacterIdleData [animA]
    (Some (div (of_Z 5) (of_Z 100))) (Some (div (of_Z 1) (of_Z 100))) hero.

(** The two animations of the plugin's help text, weights 70 and 30. *)
Definition animBlink : IdleAnim := mkIdleAnim "Hero_IdleBlink" 0 2 70.
Definition animStretch : IdleAnim := mkIdleAnim "Hero_IdleStretch" 0 2 30.

Definition blinkStretchHero : Character :=
  setCharacterIdleData [animBlink; animStretch] None None hero.

(** A definition with probability 100 and one with probability 0, as
    [setCharacterIdleData] may receive them. *)
Definition animB : IdleAnim := mkIdleAnim "B" 0 2 100.
Definition animZero : IdleAnim := mkIdleAnim "Z" 0 2 0.

(** An animation is playing: [c] is the state [k] frames after
    [startIdleAnimation] chose [chosen] for a character displayed as [c0]. *)
Definition Playing (c0 : Character) (chosen : IdleAnim) (k : Z) (c : Character)
  : Prop :=
  isIdling c = true
  /\ currentIdleAnim c = Some chosen
  /\ originalCharacterName c = characterName c0
  /\ originalPattern c = pattern c0
  /\ idleFrameCount c = k
  /\ idleAnimLength c = (endPattern chosen - startPattern chosen + 1) * 15.

(** The scenario with thresholds 1.0 and 2.0 seconds, probability 100 and
    the single animation [animA]. *)
Definition scenarioParams : Params := mkParams (of_Z 1) (of_Z 2) (of_Z 100).

Definition scenarioChar (sheet : string) (pat dir : Z) : Character :=
  setCharacterIdleData [animA] None None (initMembers scenarioParams sheet pat dir).

(** ** Shapes of strings *)

Fixpoint allChars (cls : ascii -> bool) (s : string) : bool :=
  match s with
  | String a s' => cls a && allChars cls s'
  | EmptyString => true
  end.

(** [s] is not empty and its first character is in [cls]. *)
Definition headIn (cls : ascii -> bool) (s : string) : bool :=
  match s with
  | String a _ => cls a
  | EmptyString => false
  end.

Definition notLt (a : ascii) : bool := negb (eq_ci a "<").

Definition notSpace (a : ascii) : bool := negb (isSpace a).

Definition notNewline (a : ascii) : bool := negb (code a =? 10).

(** The fields of a tag [<IdleAnim: name, start, end ...]: blanks [ws1],
    [ws2], [ws3] in front of the fields; a name that starts with a visible
    character and holds neither a comma nor [<]; two runs of digits. *)
Definition tagFields (ws1 name ws2 d1 ws3 d2 : string) : bool :=
  allChars isSpace ws1 && allChars isSpace ws2 && allChars isSpace ws3
  && headIn notSpace name && allChars notComma name && allChars notLt name
  && headIn isDigit d1 && allChars isDigit d1
  && headIn isDigit d2 && allChars isDigit d2.

(** The line made of those fields and of what follows the end pattern. *)
Definition animTag (ws1 name ws2 d1 ws3 d2 tail : string) : string :=
  "<IdleAnim:" ++ ws1 ++ name ++ "," ++ ws2 ++ d1 ++ "," ++ ws3 ++ d2 ++ tail.

(** Declarative reading of the patterns: [r] matches the part of [s] in
    front of [s'] and turns the captures [caps] into [caps']. *)
Fixpoint matches (r : regex) (s : string) (caps : captures)
         (s' : string) (caps' : captures) : Prop :=
  match r with
  | Chr c => exists a, s = String a s' /\ eq_ci a c = true /\ caps' = caps
  | Star cls => exists w, s = w ++ s' /\ allChars cls w = true /\ caps' = caps
  | Plus cls =>
      exists a w, s = String a w ++ s' /\ cls a = true
                  /\ allChars cls w = true /\ caps' = caps
  | Group n r' =>
      exists caps1, matches r' s caps s' caps1
                    /\ caps' = setCapture n (consumed s s') caps1
  | Opt r' => matches r' s caps s' caps' \/ (s' = s /\ caps' = caps)
  | Seq r1 r2 =>
      exists s1 caps1, matches r1 s caps s1 caps1 /\ matches r2 s1 caps1 s' caps'
  end.

(** A note with one animation and both times. *)
Definition tagsNote : string :=
  "<IdleAnim: Hero_IdleBlink, 0, 2, 70>" ++ nl
    ++ "<IdleAnimMinTime: 1.0>" ++ nl ++ "<IdleAnimMaxTime: 8.0>".

(** [s] ends with a visible character. *)
Definition keptByTrimEnd (s : string) : Prop :=
  s <> EmptyString /\ trimEnd s = s.

(** The captures of [reIdleAnim] once the end pattern has been read. *)
Definition fieldCaptures (name d1 d2 : string) : captures :=
  setCapture 3 d2 (setCapture 2 d1 (setCapture 1 name noCaptures)).


(** ** The remaining entry points of the plugin *)

(** [Game_Character.prototype.update]: the engine's own update, here the
    parameter [engine], runs first, [updateIdle] after it.  The tick holds
    what [isMoving()] and [_waitCount] give after the engine's update. *)
Definition update (p : Params) (engine : Character -> Character) (t : Tick)
  (c : Character) : Character :=
  updateIdle p t (engine c).

(** The state after a sequence of calls of [update], each with the effect
    the engine has on that frame. *)
Fixpoint runFrames (p : Params) (fs : list ((Character -> Character) * Tick))
  (c : Character) : Character :=
  match fs with
  | [] => c
  | (engine, t) :: fs' => runFrames p fs' (update p engine t c)
  end.

(** [c'] differs from [c] at most in the fields of the engine: the sheet
    name, the pattern and the direction. *)
Definition sameIdleFields (c c' : Character) : Prop :=
  idleAnimations c' = idleAnimations c
  /\ isIdling c' = isIdling c
  /\ idleTimer c' = idleTimer c
  /\ idleMinTime c' = idleMinTime c
  /\ idleMaxTime c' = idleMaxTime c
  /\ currentIdleAnim c' = currentIdleAnim c
  /\ originalPattern c' = originalPattern c
  /\ originalCharacterName c' = originalCharacterName c
  /\ idleFacingDirection c' = idleFacingDirection c
  /\ idleFrameCount c' = idleFrameCount c
  /\ idleAnimLength c' = idleAnimLength c.

(** An engine update that leaves the plugin's fields alone. *)
Definition keepsIdleFields (engine : Character -> Character) : Prop :=
  forall c : Character, sameIdleFields c (engine c).

(** The engine shows sheet [sheet], pattern [pat] and direction [dir]. *)
Definition display (sheet : string) (pat dir : Z) (c : Character) : Character :=
  {| characterName := sheet;
     pattern := pat;
     direction := dir;
     idleAnimations := idleAnimations c;
     isIdling := isIdling c;
     idleTimer := idleTimer c;
     idleMinTime := idleMinTime c;
     idleMaxTime := idleMaxTime c;
     currentIdleAnim := currentIdleAnim c;
     originalPattern := originalPattern c;
     originalCharacterName := originalCharacterName c;
     idleFacingDirection := idleFacingDirection c;
     idleFrameCount := idleFrameCount c;
     idleAnimLength := idleAnimLength c |}.

(** The body of the plugin command [triggerIdle] once [$gameMap.character]
    has answered: [character] is what it returned, [None] for a falsy
    answer, and [isMoving] what [character.isMoving()] returns. *)
Definition triggerIdle (u : num) (isMoving : bool) (character : option Character)
  : option Character :=
  match character with
  | Some c =>
      if negb isMoving && negb (isIdling c)
      then Some (startIdleAnimation u c) else Some c
  | None => None
  end.

(** An event command: its [code] and its [parameters[0]]. *)
Record Command := mkCommand {
  cmdCode : Z;
  cmdText : string
}.

(** [cmd.code === 108 || cmd.code === 408]. *)
Definition isComment (cmd : Command) : bool :=
  (cmdCode cmd =? 108) || (cmdCode cmd =? 408).

(** The loop of [setupPageSettings] over the commands of the page. *)
Definition loadComments (cmds : list Command) (c : Character) : Character :=
  fold_left
    (fun c cmd => if isComment cmd then loadIdleNotetags (cmdText cmd) c else c)
    cmds c.

(** [Game_Event.prototype.setupPageSettings]: the engine's own function, the
    parameter [engine], then the loop; [pageList] is [this.page().list],
    [None] when the page or its list is missing. *)
Definition setupPageSettings (engine : Character -> Character)
  (pageList : option (list Command)) (c : Character) : Character :=
  match pageList with
  | Some cmds => loadComments cmds (engine c)
  | None => engine c
  end.

(** ** Reachable states *)

(** A definition whose two patterns are integers small enough for every
    number the state machine computes from them (the pattern count, the
    length of 15 frames per pattern, the frame counter, the displayed
    pattern) to stay below 2^53, where binary64 arithmetic on integers is
    exact and [Z] shows what the code computes. *)
Definition exactAnim (a : IdleAnim) : Prop :=
  - 2 ^ 48 < startPattern a < 2 ^ 48 /\ - 2 ^ 48 < endPattern a < 2 ^ 48.

(** The states a character can be in: created by [initMembers], then changed
    by the engine in its own fields, by [updateIdle], by the command
    [triggerIdle], by [setCharacterIdleData] and by [loadIdleNotetags], the
    last two with definitions in the range [exactAnim]. *)
Inductive Reachable (p : Params) : Character -> Prop :=
| reach_init (sheet : string) (pat dir : Z) :
    Reachable p (initMembers p sheet pat dir)
| reach_engine (c c' : Character) :
    Reachable p c -> sameIdleFields c c' -> Reachable p c'
| reach_updateIdle (t : Tick) (c : Character) :
    Reachable p c -> Reachable p (updateIdle p t c)
| reach_triggerIdle (u : num) (isMoving : bool) (c c' : Character) :
    Reachable p c -> triggerIdle u isMoving (Some c) = Some c' -> Reachable p c'
| reach_setCharacterIdleData (anims : list IdleAnim) (mn mx : option num)
                             (c : Character) :
    Reachable p c -> Forall exactAnim anims ->
    Reachable p (setCharacterIdleData anims mn mx c)
| reach_loadIdleNotetags (note : string) (c : Character) :
    Reachable p c -> Forall exactAnim (idleAnims (parseNote note)) ->
    Reachable p (loadIdleNotetags note c).

(** The idle fields fit together: [_isIdling] is set exactly when there is a
    current animation, and then the length is 15 frames per pattern of that
    animation and the frame counter is 0 or strictly inside the length. *)
Definition Consistent (c : Character) : Prop :=
  match currentIdleAnim c with
  | Some a =>
      isIdling c = true
      /\ idleAnimLength c = (endPattern a - startPattern a + 1) * 15
      /\ (idleFrameCount c = 0
          \/ 0 < idleFrameCount c < idleAnimLength c)
  | None => isIdling c = false
  end.

(** The display saved in [_originalCharacterName] and [_originalPattern]. *)
Definition saved (c : Character) : Character :=
  display (originalCharacterName c) (originalPattern c) (idleFacingDirection c) c.

(** The frames an idling character still needs to finish its animation. *)
Definition framesLeft (c : Character) : nat :=
  Z.to_nat (Z.max 1 (idleAnimLength c - idleFrameCount c)).

(** A frame on which the engine leaves the plugin's fields alone and the
    character neither moves nor waits. *)
Definition quietFrame (f : (Character -> Character) * Tick) : Prop :=
  keepsIdleFields (fst f) /\ stationary (snd f).

(** An animation is playing and the facing of [c0] is the locked one. *)
Definition Locked (c0 : Character) (chosen : IdleAnim) (k : Z) (c : Character)
  : Prop :=
  Playing c0 chosen k c /\ idleFacingDirection c = direction c0.

(** An engine that turns the character around and shows the walking sheet
    again: sheet [Hero], pattern 1, direction 8. *)
Definition turnUp (c : Character) : Character := display "Hero" 1 8 c.

(** [hero] with [idleMinTime] 0.02 and [idleMaxTime] 0.04. *)
Definition shortHero : Character :=
  setCharacterIdleData [animA]
    (Some (div (of_Z 2) (of_Z 100))) (Some (div (of_Z 4) (of_Z 100))) hero.

(** A frame on which the character stands still but waits. *)
Definition waitTick : Tick := mkTick false 30 half half.

(** The ranges of the numbers of a definition made by the parser. *)
Definition parsedRanges (d : IdleAnim) : Prop :=
  0 <= startPattern d /\ 0 <= endPattern d /\ 1 <= probability d.

(** The lines [<IdleAnimMinTime: ds>] and [<IdleAnimMaxTime: ds>], with the
    blanks [ws] in front of the number. *)
Definition minTimeTag (ws ds : string) : string :=
  "<IdleAnimMinTime:" ++ ws ++ ds ++ ">".

Definition maxTimeTag (ws ds : string) : string :=
  "<IdleAnimMaxTime:" ++ ws ++ ds ++ ">".

(** Blanks other than line feeds, then a non-empty run of digits and dots. *)
Definition timeFields (ws ds : string) : bool :=
  allChars isSpace ws && allChars notNewline ws
  && headIn isDigitOrDot ds && allChars isDigitOrDot ds.

Definition isDot (a : ascii) : bool := code a =? 46.

(** A command that [setupPageSettings] passes over or whose text is the
    empty string, which [loadIdleNotetags] ignores. *)
Definition skipped (cmd : Command) : Prop :=
  isComment cmd = false \/ cmdText cmd = EmptyString.

(** The example of the plugin's help text as the three lines of one event
    comment: the first line is a command with code 108, the following lines
    are commands with code 408. *)
Definition helpComment : list Command :=
  [mkCommand 108 "<IdleAnim: Hero_IdleBlink, 0, 2, 70>";
   mkCommand 408 "<IdleAnim: Hero_IdleStretch, 0, 2, 30>";
   mkCommand 408 "<IdleAnimMinTime: 4.0>"].

(** The tags of a text followed by the tags of another: the definitions of
    both in order, and of each time the later one when there is one. *)
Definition joinTags (a b : Notetags) : Notetags :=
  mkNotetags (idleAnims a ++ idleAnims b)
             (match minTime b with Some m => Some m | None => minTime a end)
             (match maxTime b with Some m => Some m | None => maxTime a end).

(** Equal up to the case of the letters, as literal text is compared under
    the [i] flag. *)
Fixpoint ciEqual (s1 s2 : string) : bool :=
  match s1, s2 with
  | EmptyString, EmptyString => true
  | String a r1, String b r2 => eq_ci a b && ciEqual r1 r2
  | _, _ => false
  end.

(** A digit field whose value is below 2^53: [parseInt] of it is that value
    exactly, in the code as in the model. *)
Definition exactField (d : string) : Prop := digitsValue 0 d < 2 ^ 53.

(** ** The weighted selection in the words of the specification

    The total weight is the sum of the probabilities of the definitions, a
    draw in [0, total) is walked through the definitions in order, the
    probability of each is subtracted, and the first definition at which the
    remainder is [<= 0] is chosen, the first of the list when there is none.
    A probability of 0 is a weight of 0 here. *)

Definition specTotalWeight (anims : list IdleAnim) : num :=
  fold_left (fun sum anim => add sum (of_Z (probability anim))) anims zero.

Fixpoint specWalk (anims : list IdleAnim) (rand : num) : option IdleAnim :=
  match anims with
  | [] => None
  | anim :: rest =>
      let rand' := sub rand (of_Z (probability anim)) in
      if le rand' zero then Some anim else specWalk rest rand'
  end.

Definition specChoose (anims : list IdleAnim) (first : IdleAnim) (u : num)
  : IdleAnim :=
  match specWalk anims (mul u (specTotalWeight anims)) with
  | Some anim => anim
  | None => first
  end.

(** The values 0.25 and 0.75 of [Math.random()]. *)
Definition quarter : num := div (of_Z 1) (of_Z 4).
Definition threeQuarters : num := div (of_Z 3) (of_Z 4).

(** The definitions of the character and its current animation are in the
    range [exactAnim]. *)
Definition ExactState (c : Character) : Prop :=
  Forall exactAnim (idleAnimations c)
  /\ forall a : IdleAnim, currentIdleAnim c = Some a -> exactAnim a.

(** * Properties *)

(** ** Comparisons of numbers *)

Section Comparisons.

Lemma SFcompare_lt_le_trans (a b c : num) :
  SFltb a b = true -> SFleb b c = true -> SFltb a c = true.
Proof.
  unfold SFltb, SFleb.
  destruct a as [sa| sa| |sa ma ea], b as [sb| sb| |sb mb eb],
           c as [sc| sc| |sc mc ec]; simpl; try discriminate;
    try (destruct sa; simpl; try discriminate);
    try (destruct sb; simpl; try discriminate);
    try (destruct sc; simpl; try discriminate); auto.
  all: rewrite ?Pos.compare_cont_spec; simpl.
  all: destruct (Z.compare_spec ea eb); destruct (Z.compare_spec eb ec);
       destruct (Z.compare_spec ea ec); subst; simpl; try discriminate; auto;
       try lia.
  all: destruct (Pos.compare_spec ma mb); destruct (Pos.compare_spec mb mc);
       destruct (Pos.compare_spec ma mc); subst; simpl; try discriminate;
       auto; try lia.
Qed.

(** [b > a] and [c >= b] give [c > a]. *)
Lemma gt_ge_trans (a b c : num) :
  gt b a = true -> ge c b = true -> gt c a = true.
Proof. unfold gt, ge. apply SFcompare_lt_le_trans. Qed.

End Comparisons.

(** ** One frame of the state machine *)

Section OneFrame.

Variable p : Params.

Lemma stationary_guard (t : Tick) :
  stationary t -> moving t || (0 <? waitCount t) = false.
Proof.
  intros [Hm Hw]. rewrite Hm. simpl. apply Z.ltb_ge. exact Hw.
Qed.

Lemma startIdleAnimation_isIdling (u : num) (c : Character) :
  idleAnimations c <> [] -> isIdling (startIdleAnimation u c) = true.
Proof.
  unfold startIdleAnimation. destruct (idleAnimations c); [congruence|].
  reflexivity.
Qed.

(** While the gate [idleTimer >= idleMinTime] is closed a stationary frame
    only adds [1/60] to the timer. *)
Lemma updateIdle_waiting (t : Tick) (c : Character) :
  stationary t -> isIdling c = false ->
  ge (add (idleTimer c) frameTime) (idleMinTime c) = false ->
  updateIdle p t c = withTimer (add (idleTimer c) frameTime) c.
Proof.
  intros Hs Hi Hg. unfold updateIdle.
  rewrite (stationary_guard t Hs), Hi. simpl. rewrite Hg. reflexivity.
Qed.

(** Once the gate is open the frame starts an animation exactly when the
    maximum is exceeded or the roll is below the plugin parameter. *)
Lemma updateIdle_gate_open (t : Tick) (c : Character) :
  stationary t -> isIdling c = false ->
  ge (add (idleTimer c) frameTime) (idleMinTime c) = true ->
  updateIdle p t c =
    let c1 := withTimer (add (idleTimer c) frameTime) c in
    if gt (add (idleTimer c) frameTime) (idleMaxTime c)
       || lt (roll t) (DEFAULT_PROB p)
    then startIdleAnimation (rndPick t) c1 else c1.
Proof.
  intros Hs Hi Hg. unfold updateIdle.
  rewrite (stationary_guard t Hs), Hi. simpl. rewrite Hg. reflexivity.
Qed.

Lemma trigger_iff (t : Tick) (c : Character) :
  idleAnimations c <> [] -> stationary t -> isIdling c = false ->
  ge (add (idleTimer c) frameTime) (idleMinTime c) = true ->
  isIdling (updateIdle p t c) =
    gt (add (idleTimer c) frameTime) (idleMaxTime c)
    || lt (roll t) (DEFAULT_PROB p).
Proof.
  intros Hne Hs Hi Hg. rewrite updateIdle_gate_open by assumption.
  cbv zeta.
  destruct (gt _ _ || lt _ _).
  - apply startIdleAnimation_isIdling. exact Hne.
  - exact Hi.
Qed.

End OneFrame.

(** C1. For a character with at least one idle animation that stands still
    and is not idling, on a frame where the accumulated timer has reached
    [idleMinTime], the character starts idling if and only if the timer
    exceeds [idleMaxTime] or the roll [Math.random() * 100] is below the
    plugin-wide probability; replacing the list of animations, and with it
    every per-animation weight, by any other non-empty list leaves that
    decision unchanged. *)
Theorem idle_trigger_decision (p : Params) (t : Tick) (c : Character) :
  idleAnimations c <> [] -> stationary t -> isIdling c = false ->
  ge (add (idleTimer c) frameTime) (idleMinTime c) = true ->
  (isIdling (updateIdle p t c) = true <->
     gt (add (idleTimer c) frameTime) (idleMaxTime c) = true
     \/ lt (roll t) (DEFAULT_PROB p) = true)
  /\ (forall anims' : list IdleAnim, anims' <> [] ->
        isIdling (updateIdle p t (setCharacterIdleData anims' None None c))
        = isIdling (updateIdle p t c)).
Proof.
  intros Hne Hs Hi Hg. split.
  - rewrite (trigger_iff p t c Hne Hs Hi Hg). apply orb_true_iff.
  - intros anims' Hne'.
    rewrite (trigger_iff p t c Hne Hs Hi Hg).
    rewrite trigger_iff; auto.
Qed.

Lemma idle_trigger_decision_witness :
  (isIdling (updateIdle defaultParams stillTick (withTimer (of_Z 5) hero)) = true <->
     gt (add (idleTimer (withTimer (of_Z 5) hero)) frameTime)
        (idleMaxTime (withTimer (of_Z 5) hero)) = true
     \/ lt (roll stillTick) (DEFAULT_PROB defaultParams) = true)
  /\ (forall anims' : list IdleAnim, anims' <> [] ->
        isIdling (updateIdle defaultParams stillTick
                    (setCharacterIdleData anims' None None (withTimer (of_Z 5) hero)))
        = isIdling (updateIdle defaultParams stillTick (withTimer (of_Z 5) hero))).
Proof.
  apply (idle_trigger_decision defaultParams stillTick (withTimer (of_Z 5) hero)).
  - discriminate.
  - split; [reflexivity | simpl; lia].
  - reflexivity.
  - vm_compute. reflexivity.
Defined.

(** C5. On a frame on which the character moves or waits, [updateIdle]
    clears the timer, [_isIdling] and [_currentIdleAnim] and does nothing
    else: the displayed sheet, pattern and direction and every other field
    stay as they were, also when an animation was playing and the displayed
    sheet and pattern are not the saved originals. *)
Theorem motion_resets_without_revert (p : Params) (t : Tick) (c : Character) :
  moving t = true \/ 0 < waitCount t ->
  idleTimer (updateIdle p t c) = zero
  /\ isIdling (updateIdle p t c) = false
  /\ currentIdleAnim (updateIdle p t c) = None
  /\ characterName (updateIdle p t c) = characterName c
  /\ pattern (updateIdle p t c) = pattern c
  /\ direction (updateIdle p t c) = direction c
  /\ idleAnimations (updateIdle p t c) = idleAnimations c
  /\ idleMinTime (updateIdle p t c) = idleMinTime c
  /\ idleMaxTime (updateIdle p t c) = idleMaxTime c
  /\ originalCharacterName (updateIdle p t c) = originalCharacterName c
  /\ originalPattern (updateIdle p t c) = originalPattern c
  /\ idleFacingDirection (updateIdle p t c) = idleFacingDirection c
  /\ idleFrameCount (updateIdle p t c) = idleFrameCount c
  /\ idleAnimLength (updateIdle p t c) = idleAnimLength c.
Proof.
  intros H.
  assert (G : moving t || (0 <? waitCount t) = true).
  { destruct H as [H | H].
    - rewrite H. reflexivity.
    - apply orb_true_iff. right. apply Z.ltb_lt. exact H. }
  unfold updateIdle. rewrite G. simpl. repeat split.
Qed.

Lemma motion_resets_without_revert_witness :
  characterName (startIdleAnimation half hero) = "A"
  /\ originalCharacterName (startIdleAnimation half hero) = "Hero"
  /\ isIdling (updateIdle defaultParams walkTick (startIdleAnimation half hero)) = false
  /\ characterName (updateIdle defaultParams walkTick (startIdleAnimation half hero))
     = characterName (startIdleAnimation half hero).
Proof.
  pose proof (motion_resets_without_revert defaultParams walkTick
                (startIdleAnimation half hero) (or_introl eq_refl))
    as (_ & Hi & _ & Hn & _).
  split; [reflexivity|]. split; [reflexivity|]. split; [exact Hi | exact Hn].
Defined.

(** ** Sequences of frames *)

Section Frames.

Variable p : Params.

Lemma run_one (t : Tick) (c : Character) : run p [t] c = updateIdle p t c.
Proof. reflexivity. Qed.

Lemma run_app (ts1 ts2 : list Tick) (c : Character) :
  run p (ts1 ++ ts2) c = run p ts2 (run p ts1 c).
Proof.
  revert c. induction ts1 as [|t ts1 IH]; intros c; simpl; [reflexivity|].
  apply IH.
Qed.

Lemma timerAfter_shift (n : nat) (t0 : num) :
  timerAfter n (add t0 frameTime) = timerAfter (S n) t0.
Proof.
  induction n as [|n IH]; simpl; [reflexivity|].
  rewrite IH. reflexivity.
Qed.

Lemma withTimer_same (c : Character) : withTimer (idleTimer c) c = c.
Proof. destruct c. reflexivity. Qed.

(** As long as the timer stays below [idleMinTime], stationary frames only
    accumulate time. *)
Lemma run_waiting (ts : list Tick) (c : Character) :
  Forall stationary ts -> isIdling c = false ->
  (forall j, (1 <= j <= List.length ts)%nat ->
             ge (timerAfter j (idleTimer c)) (idleMinTime c) = false) ->
  run p ts c = withTimer (timerAfter (List.length ts) (idleTimer c)) c.
Proof.
  revert c. induction ts as [|t ts IH]; intros c Hs Hi Hlow; simpl.
  - symmetry. apply withTimer_same.
  - inversion Hs as [|? ? Ht Hts]; subst.
    rewrite updateIdle_waiting; auto.
    + rewrite IH; auto.
      * simpl. rewrite timerAfter_shift. reflexivity.
      * intros j Hj. simpl. rewrite timerAfter_shift.
        apply Hlow. simpl. lia.
    + apply (Hlow 1%nat). simpl. lia.
Qed.

End Frames.

(** C10. With [idleMinTime > idleMaxTime] and at least one animation, the
    character starts idling on the first stationary frame on which the
    accumulated timer reaches [idleMinTime], whatever [Math.random()]
    returns and whatever the configured probability is: no earlier frame
    starts an animation, and on that frame the timer already exceeds
    [idleMaxTime]. *)
Theorem inverted_times_force_trigger
  (p : Params) (ts : list Tick) (t : Tick) (c : Character) :
  idleAnimations c <> [] -> isIdling c = false ->
  gt (idleMinTime c) (idleMaxTime c) = true ->
  Forall stationary ts -> stationary t ->
  (forall j, (1 <= j <= List.length ts)%nat ->
             ge (timerAfter j (idleTimer c)) (idleMinTime c) = false) ->
  ge (timerAfter (S (List.length ts)) (idleTimer c)) (idleMinTime c) = true ->
  isIdling (run p ts c) = false
  /\ gt (timerAfter (S (List.length ts)) (idleTimer c)) (idleMaxTime c) = true
  /\ isIdling (run p (ts ++ [t]) c) = true.
Proof.
  intros Hne Hi Hinv Hs Ht Hlow Hopen.
  assert (Hexc : gt (timerAfter (S (List.length ts)) (idleTimer c)) (idleMaxTime c) = true).
  { apply gt_ge_trans with (b := idleMinTime c); assumption. }
  rewrite run_app, (run_waiting p ts c Hs Hi Hlow). simpl run.
  split; [exact Hi|]. split; [exact Hexc|].
  rewrite trigger_iff; auto.
  simpl. simpl in Hexc. rewrite Hexc. reflexivity.
Qed.

Lemma inverted_times_force_trigger_witness :
  gt (idleMinTime invertedHero) (idleMaxTime invertedHero) = true
  /\ isIdling (run zeroProbParams [stillTick; stillTick] invertedHero) = false
  /\ isIdling (run zeroProbParams ([stillTick; stillTick] ++ [stillTick]) invertedHero) = true.
Proof.
  split; [reflexivity|].
  assert (Hs : stationary stillTick) by (split; [reflexivity | simpl; lia]).
  pose proof (inverted_times_force_trigger zeroProbParams
                [stillTick; stillTick] stillTick invertedHero) as H.
  destruct H as (H1 & _ & H3).
  - discriminate.
  - reflexivity.
  - reflexivity.
  - repeat constructor; simpl; lia.
  - exact Hs.
  - intros j Hj. simpl in Hj.
    assert (Hc : j = 1%nat \/ j = 2%nat) by lia.
    destruct Hc; subst j; vm_compute; reflexivity.
  - vm_compute. reflexivity.
  - split; assumption.
Defined.

(** ** Weighted selection *)

Section Selection.

(** The loop leaves at the first position whose running remainder is
    [<= 0], and runs off the end when there is none. *)
Lemma walk_first_exhausted (anims : list IdleAnim) (rand : num) :
  match walk anims rand with
  | Some chosen =>
      exists i, nth_error anims i = Some chosen
                /\ le (remainder anims rand i) zero = true
                /\ forall j, (j < i)%nat -> le (remainder anims rand j) zero = false
  | None =>
      forall i, (i < List.length anims)%nat -> le (remainder anims rand i) zero = false
  end.
Proof.
  revert rand. induction anims as [|a rest IH]; intros rand; simpl.
  - intros i Hi. lia.
  - destruct (le (sub rand (of_Z (weight a))) zero) eqn:E.
    + exists 0%nat. simpl. repeat split; auto. intros j Hj. lia.
    + specialize (IH (sub rand (of_Z (weight a)))).
      destruct (walk rest (sub rand (of_Z (weight a)))) as [chosen|].
      * destruct IH as (i & Hn & Hle & Hbefore).
        exists (S i). simpl. repeat split; auto.
        intros [|j] Hj; [exact E | apply Hbefore; lia].
      * intros [|i] Hi; [exact E | apply IH; lia].
Qed.

Lemma chooseAnim_single (a : IdleAnim) (u : num) : chooseAnim [a] a u = a.
Proof.
  unfold chooseAnim. cbn [walk].
  destruct (le (sub (mul u (totalWeight [a])) (of_Z (weight a))) zero);
    reflexivity.
Qed.

Lemma startIdleAnimation_current (u : num) (c : Character)
      (first : IdleAnim) (rest : list IdleAnim) :
  idleAnimations c = first :: rest ->
  currentIdleAnim (startIdleAnimation u c)
  = Some (chooseAnim (first :: rest) first u).
Proof.
  intros H. unfold startIdleAnimation. rewrite H. reflexivity.
Qed.

(** A definition whose probability is 0 is walked with the default weight
    100. *)
Lemma weight_of_zero (a : IdleAnim) : probability a = 0 -> weight a = 100.
Proof. intros H. unfold weight. rewrite H. reflexivity. Qed.

Lemma weight_nonzero (a : IdleAnim) : weight a <> 0.
Proof.
  unfold weight. destruct (probability a =? 0) eqn:E; [lia|].
  apply Z.eqb_neq. exact E.
Qed.

End Selection.

(** The walk of the code.  For a non-empty list of definitions and every
    draw [rand = Math.random() * totalWeight], where [totalWeight] adds up
    the weights [probability || 100], [startIdleAnimation] makes current the
    first definition, in list order, at which the running remainder is
    [<= 0] after its weight has been subtracted; when there is no such
    definition it makes the first definition of the list current. *)
Lemma weighted_selection_walk
  (u : num) (c : Character) (first : IdleAnim) (rest : list IdleAnim) :
  idleAnimations c = first :: rest ->
  totalWeight (first :: rest)
  = fold_left (fun sum anim =>
                 add sum (of_Z (if probability anim =? 0 then 100
                                else probability anim)))
              (first :: rest) zero
  /\ exists chosen : IdleAnim,
      currentIdleAnim (startIdleAnimation u c) = Some chosen
      /\ ((exists i : nat,
             nth_error (first :: rest) i = Some chosen
             /\ le (remainder (first :: rest) (mul u (totalWeight (first :: rest))) i)
                   zero = true
             /\ forall j : nat, (j < i)%nat ->
                  le (remainder (first :: rest) (mul u (totalWeight (first :: rest))) j)
                     zero = false)
          \/ ((forall i : nat, (i < List.length (first :: rest))%nat ->
                 le (remainder (first :: rest) (mul u (totalWeight (first :: rest))) i)
                    zero = false)
              /\ chosen = first)).
Proof.
  intros H. split; [reflexivity|].
  rewrite (startIdleAnimation_current u c first rest H).
  unfold chooseAnim.
  pose proof (walk_first_exhausted (first :: rest)
                (mul u (totalWeight (first :: rest)))) as W.
  destruct (walk (first :: rest) (mul u (totalWeight (first :: rest))))
    as [chosen|].
  - exists chosen. split; [reflexivity|]. left. exact W.
  - exists first. split; [reflexivity|]. right. split; [exact W | reflexivity].
Qed.

Lemma weighted_selection_walk_witness :
  idleAnimations blinkStretchHero = animBlink :: [animStretch]
  /\ currentIdleAnim (startIdleAnimation (div (of_Z 9) (of_Z 10)) blinkStretchHero)
     = Some animStretch
  /\ exists chosen : IdleAnim,
      currentIdleAnim (startIdleAnimation (div (of_Z 9) (of_Z 10)) blinkStretchHero)
      = Some chosen.
Proof.
  split; [reflexivity|]. split; [reflexivity|].
  destruct (weighted_selection_walk (div (of_Z 9) (of_Z 10)) blinkStretchHero
              animBlink [animStretch] eq_refl) as (_ & chosen & Hc & _).
  exists chosen. exact Hc.
Defined.

(** *** The code against the words of the specification *)

Section SpecSelection.

(** Without a probability of 0 in the list the code walks as the
    specification says. *)
Lemma weight_is_probability (a : IdleAnim) :
  probability a <> 0 -> weight a = probability a.
Proof.
  intros H. unfold weight. destruct (Z.eqb_spec (probability a) 0); congruence.
Qed.

Lemma totalWeight_spec_from (anims : list IdleAnim) :
  (forall a, In a anims -> probability a <> 0) ->
  forall acc : num,
    fold_left (fun sum anim => add sum (of_Z (weight anim))) anims acc
    = fold_left (fun sum anim => add sum (of_Z (probability anim))) anims acc.
Proof.
  induction anims as [|a rest IH]; intros H acc; [reflexivity|].
  cbn [fold_left]. rewrite (weight_is_probability a) by (apply H; left; reflexivity).
  apply IH. intros b Hb. apply H. right. exact Hb.
Qed.

Lemma walk_spec (anims : list IdleAnim) :
  (forall a, In a anims -> probability a <> 0) ->
  forall rand : num, walk anims rand = specWalk anims rand.
Proof.
  induction anims as [|a rest IH]; intros H rand; [reflexivity|].
  cbn [walk specWalk].
  rewrite (weight_is_probability a) by (apply H; left; reflexivity).
  rewrite IH by (intros b Hb; apply H; right; exact Hb). reflexivity.
Qed.

Lemma chooseAnim_spec (anims : list IdleAnim) (first : IdleAnim) (u : num) :
  (forall a, In a anims -> probability a <> 0) ->
  chooseAnim anims first u = specChoose anims first u.
Proof.
  intros H. unfold chooseAnim, specChoose, totalWeight, specTotalWeight.
  rewrite (totalWeight_spec_from anims H), (walk_spec anims H). reflexivity.
Qed.

End SpecSelection.

(** C2 (the code departs from the claim).  With the definitions [B] of
    probability 100 and [Z] of probability 0 and [Math.random()] returning
    0.75, the walk of the specification has the total weight 100, draws 75
    and chooses [B]; the code counts the probability 0 as 100, has the total
    weight 200, draws 150, and [startIdleAnimation] makes [Z] the current
    animation and shows its sheet. *)
Theorem selection_counts_zero_as_hundred :
  specTotalWeight [animB; animZero] = of_Z 100
  /\ specChoose [animB; animZero] animB threeQuarters = animB
  /\ totalWeight [animB; animZero] = of_Z 200
  /\ mul threeQuarters (totalWeight [animB; animZero]) = of_Z 150
  /\ chooseAnim [animB; animZero] animB threeQuarters = animZero
  /\ currentIdleAnim
       (startIdleAnimation threeQuarters
          (setCharacterIdleData [animB; animZero] None None hero))
     = Some animZero
  /\ characterName
       (startIdleAnimation threeQuarters
          (setCharacterIdleData [animB; animZero] None None hero))
     = "Z".
Proof. vm_compute. repeat split. Qed.

(** C3 (the code departs from the claim).  With the definition [Z] of
    probability 0 in front of [B] of probability 100, the walk of the
    specification gives [Z] the weight 0: the total is 100, the draw 0 leaves
    the remainder 0 at [Z], which is chosen, and the draw 25 passes [Z] and
    chooses [B].  The code gives [Z] the weight 100: the total is 200, the
    draw 0 leaves the remainder -100 at [Z], and with [Math.random()]
    returning 0.25 the draw is 50 and [Z] is chosen where the specification
    chooses [B]. *)
Theorem zero_probability_is_walked_as_hundred :
  probability animZero = 0
  /\ specTotalWeight [animZero; animB] = of_Z 100
  /\ sub zero (of_Z (probability animZero)) = zero
  /\ specWalk [animZero; animB] zero = Some animZero
  /\ specChoose [animZero; animB] animZero quarter = animB
  /\ weight animZero = 100
  /\ totalWeight [animZero; animB] = of_Z 200
  /\ remainder [animZero; animB] zero 0 = of_Z (-100)
  /\ mul quarter (totalWeight [animZero; animB]) = of_Z 50
  /\ chooseAnim [animZero; animB] animZero quarter = animZero.
Proof. vm_compute. repeat split. Qed.

(** ** Playback *)

Section Playback.

Variable p : Params.

Lemma startIdleAnimation_playing (u : num) (c : Character) :
  idleAnimations c <> [] ->
  exists chosen : IdleAnim,
    In chosen (idleAnimations c)
    /\ Playing c chosen 0 (startIdleAnimation u c).
Proof.
  intros Hne. unfold startIdleAnimation.
  destruct (idleAnimations c) as [|first rest] eqn:E; [congruence|].
  exists (chooseAnim (first :: rest) first u). split.
  - unfold chooseAnim.
    pose proof (walk_first_exhausted (first :: rest)
                  (mul u (totalWeight (first :: rest)))) as W.
    destruct (walk (first :: rest) (mul u (totalWeight (first :: rest))))
      as [found|].
    + destruct W as (i & Hn & _). eapply nth_error_In. exact Hn.
    + left. reflexivity.
  - repeat split.
Qed.

(** A stationary frame before the last one keeps the animation playing. *)
Lemma playing_advance (c0 : Character) (chosen : IdleAnim) (k : Z)
      (t : Tick) (c : Character) :
  stationary t -> Playing c0 chosen k c ->
  k + 1 < (endPattern chosen - startPattern chosen + 1) * 15 ->
  Playing c0 chosen (k + 1) (updateIdle p t c).
Proof.
  intros Hs (Hi & Hc & Hn & Hp & Hk & Hl) Hlt.
  unfold updateIdle. rewrite (stationary_guard t Hs), Hi, Hc. simpl.
  unfold updateIdleAnimationFrame.
  rewrite Hl, Hk.
  destruct (Z.leb_spec ((endPattern chosen - startPattern chosen + 1) * 15) (k + 1));
    [lia|].
  repeat split; simpl; assumption.
Qed.

(** The stationary frame on which the counter reaches the length restores
    the display and leaves the idle state. *)
Lemma playing_complete (c0 : Character) (chosen : IdleAnim) (k : Z)
      (t : Tick) (c : Character) :
  stationary t -> Playing c0 chosen k c ->
  (endPattern chosen - startPattern chosen + 1) * 15 <= k + 1 ->
  characterName (updateIdle p t c) = characterName c0
  /\ pattern (updateIdle p t c) = pattern c0
  /\ isIdling (updateIdle p t c) = false
  /\ currentIdleAnim (updateIdle p t c) = None
  /\ idleTimer (updateIdle p t c) = zero
  /\ idleFrameCount (updateIdle p t c) = k + 1.
Proof.
  intros Hs (Hi & Hc & Hn & Hp & Hk & Hl) Hge.
  unfold updateIdle. rewrite (stationary_guard t Hs), Hi, Hc. simpl.
  unfold updateIdleAnimationFrame.
  rewrite Hl, Hk.
  destruct (Z.leb_spec ((endPattern chosen - startPattern chosen + 1) * 15) (k + 1));
    [|lia].
  repeat split; simpl; assumption.
Qed.

Lemma run_playing (c0 : Character) (chosen : IdleAnim) (ts : list Tick) :
  forall (k : Z) (c : Character),
    Forall stationary ts -> Playing c0 chosen k c ->
    k + Z.of_nat (List.length ts) < (endPattern chosen - startPattern chosen + 1) * 15 ->
    Playing c0 chosen (k + Z.of_nat (List.length ts)) (run p ts c).
Proof.
  induction ts as [|t ts IH]; intros k c Hs Hpl Hlt.
  - simpl. rewrite Z.add_0_r. exact Hpl.
  - inversion Hs as [|? ? Ht Hts]; subst.
    simpl run.
    replace (k + Z.of_nat (List.length (t :: ts)))
      with ((k + 1) + Z.of_nat (List.length ts)) in * by (simpl List.length; lia).
    apply IH; auto.
    apply playing_advance; auto. lia.
Qed.

Lemma Forall_stationary_firstn (n : nat) (ts : list Tick) :
  Forall stationary ts -> Forall stationary (firstn n ts).
Proof.
  revert n. induction ts as [|t ts IH]; intros [|n] H; simpl; auto.
  inversion H; subst. constructor; auto.
Qed.

End Playback.

(** C4. Let a character with at least one animation enter the idle state
    through [startIdleAnimation], and let only stationary frames follow.  The
    animation then plays on every frame before the one on which
    [_idleFrameCount] reaches [_idleAnimLength], and on that frame the
    displayed sheet and pattern are again the ones shown before the
    animation started, [_isIdling] is false, [_currentIdleAnim] is cleared
    and the timer is zero. *)
Theorem idle_round_trip
  (p : Params) (u : num) (c : Character) (ts : list Tick) (t : Tick) :
  idleAnimations c <> [] ->
  Forall stationary ts -> stationary t ->
  Z.of_nat (List.length ts) + 1 = Z.max 1 (idleAnimLength (startIdleAnimation u c)) ->
  (forall n : nat, (n <= List.length ts)%nat ->
     isIdling (run p (firstn n ts) (startIdleAnimation u c)) = true
     /\ idleFrameCount (run p (firstn n ts) (startIdleAnimation u c)) = Z.of_nat n)
  /\ characterName (run p (ts ++ [t]) (startIdleAnimation u c)) = characterName c
  /\ pattern (run p (ts ++ [t]) (startIdleAnimation u c)) = pattern c
  /\ isIdling (run p (ts ++ [t]) (startIdleAnimation u c)) = false
  /\ currentIdleAnim (run p (ts ++ [t]) (startIdleAnimation u c)) = None
  /\ idleTimer (run p (ts ++ [t]) (startIdleAnimation u c)) = zero
  /\ idleAnimLength (run p (ts ++ [t]) (startIdleAnimation u c))
     <= idleFrameCount (run p (ts ++ [t]) (startIdleAnimation u c)).
Proof.
  intros Hne Hs Ht Hlen.
  destruct (startIdleAnimation_playing u c Hne) as (chosen & _ & Hpl).
  assert (HL : idleAnimLength (startIdleAnimation u c)
               = (endPattern chosen - startPattern chosen + 1) * 15)
    by apply Hpl.
  rewrite HL in Hlen.
  assert (Hpre : forall n : nat, (n <= List.length ts)%nat ->
            Playing c chosen (Z.of_nat n)
                    (run p (firstn n ts) (startIdleAnimation u c))).
  { intros n Hn.
    destruct n as [|n]; [exact Hpl|].
    assert (Hl : List.length (firstn (S n) ts) = S n)
      by (rewrite length_firstn; lia).
    pose proof (run_playing p c chosen (firstn (S n) ts) 0 (startIdleAnimation u c)
                  (Forall_stationary_firstn (S n) ts Hs) Hpl) as R.
    rewrite Hl in R. rewrite Z.add_0_l in R. apply R. lia. }
  split.
  - intros n Hn. destruct (Hpre n Hn) as (Hi & _ & _ & _ & Hk & _). auto.
  - pose proof (Hpre (List.length ts) (Nat.le_refl _)) as Hlast.
    rewrite firstn_all in Hlast.
    rewrite run_app. simpl run.
    assert (Hfin : (endPattern chosen - startPattern chosen + 1) * 15
                   <= Z.of_nat (List.length ts) + 1) by lia.
    destruct (playing_complete p c chosen _ t _ Ht Hlast Hfin)
      as (H1 & H2 & H3 & H4 & H5 & H6).
    repeat split; auto.
    rewrite H6.
    unfold updateIdle.
    destruct Hlast as (Hi & Hc & _ & _ & Hk & Hl).
    rewrite (stationary_guard t Ht), Hi, Hc. simpl.
    unfold updateIdleAnimationFrame.
    destruct (idleAnimLength _ <=? idleFrameCount _ + 1); simpl; lia.
Qed.

Lemma Forall_stationary_repeat (t : Tick) (n : nat) :
  stationary t -> Forall stationary (repeat t n).
Proof.
  intros H. induction n as [|n IH]; simpl; constructor; assumption.
Qed.

Lemma stillTick_stationary : stationary stillTick.
Proof. split; [reflexivity | simpl; lia]. Qed.

Lemma idle_round_trip_witness :
  characterName (startIdleAnimation half hero) = "A"
  /\ pattern (startIdleAnimation half hero) = 0
  /\ characterName (run defaultParams (repeat stillTick 44 ++ [stillTick])
                        (startIdleAnimation half hero)) = characterName hero
  /\ pattern (run defaultParams (repeat stillTick 44 ++ [stillTick])
                  (startIdleAnimation half hero)) = pattern hero.
Proof.
  split; [reflexivity|]. split; [reflexivity|].
  destruct (idle_round_trip defaultParams half hero (repeat stillTick 44) stillTick)
    as (_ & Hn & Hp & _).
  - discriminate.
  - apply Forall_stationary_repeat. exact stillTick_stationary.
  - exact stillTick_stationary.
  - vm_compute. reflexivity.
  - split; assumption.
Defined.

(** ** The scenario of one animation [A, 0, 2, 100] *)

Section Scenario.

Variables (sheet : string) (pat dir : Z).

(** The timer stays below 1.0 for the first 59 additions of [1/60] and has
    reached it after the 60th. *)
Lemma scenario_gate_closed (j : nat) :
  (1 <= j <= 59)%nat -> ge (timerAfter j zero) (of_Z 1) = false.
Proof.
  intros Hj.
  assert (Hall : forallb (fun k => negb (ge (timerAfter k zero) (of_Z 1)))
                         (seq 1 59) = true) by (vm_compute; reflexivity).
  rewrite forallb_forall in Hall.
  apply negb_true_iff. apply Hall. apply in_seq. lia.
Qed.

Lemma scenario_gate_open : ge (timerAfter 60 zero) (of_Z 1) = true.
Proof. vm_compute. reflexivity. Qed.

Lemma scenario_waiting (ts : list Tick) :
  Forall stationary ts -> (List.length ts <= 59)%nat ->
  run scenarioParams ts (scenarioChar sheet pat dir) = withTimer (timerAfter (List.length ts) zero) (scenarioChar sheet pat dir).
Proof.
  intros Hs Hl.
  apply (run_waiting scenarioParams ts (scenarioChar sheet pat dir) Hs eq_refl).
  intros j Hj. apply scenario_gate_closed. lia.
Qed.

Lemma scenario_trigger (ts : list Tick) (t : Tick) :
  Forall stationary ts -> List.length ts = 59%nat ->
  stationary t -> lt (roll t) (of_Z 100) = true ->
  run scenarioParams (ts ++ [t]) (scenarioChar sheet pat dir)
  = startIdleAnimation (rndPick t) (withTimer (timerAfter 60 zero) (scenarioChar sheet pat dir)).
Proof.
  intros Hs Hl Ht Hr.
  rewrite run_app, scenario_waiting by (auto; lia). rewrite Hl, run_one.
  rewrite updateIdle_gate_open;
    [| exact Ht | reflexivity | exact scenario_gate_open].
  cbv zeta. change (DEFAULT_PROB scenarioParams) with (of_Z 100).
  rewrite Hr, orb_true_r. reflexivity.
Qed.

Lemma scenario_playing (u : num) :
  Playing (scenarioChar sheet pat dir) animA 0
          (startIdleAnimation u (withTimer (timerAfter 60 zero) (scenarioChar sheet pat dir))).
Proof.
  destruct (startIdleAnimation_playing u (withTimer (timerAfter 60 zero) (scenarioChar sheet pat dir)))
    as (chosen & Hin & Hpl); [discriminate|].
  destruct Hin as [Hin | []]. subst chosen. exact Hpl.
Qed.

End Scenario.

(** C6 (as stated, refuted).  In the scenario the character is not idling
    after 59 stationary frames and is idling, with the animation just
    started, after 60: the trigger has fired on frame 60, before frame 61.
    The timer then holds 1.0000000000000013, which is at least 1.0. *)
Lemma scenario_fires_before_frame_61 :
  isIdling (run scenarioParams (repeat stillTick 59) (scenarioChar "Hero" 1 2)) = false
  /\ isIdling (run scenarioParams (repeat stillTick 60) (scenarioChar "Hero" 1 2)) = true
  /\ idleFrameCount (run scenarioParams (repeat stillTick 60) (scenarioChar "Hero" 1 2)) = 0
  /\ idleTimer (run scenarioParams (repeat stillTick 60) (scenarioChar "Hero" 1 2))
     = S754_finite false 4503599627370502 (-52).
Proof. vm_compute. repeat split. Qed.

(** C6 (amended).  In the scenario, with [1/60] added per stationary frame
    and every roll below 100, the trigger fires on frame 60 of continuous
    stationarity and on no earlier frame; the animation started there is [A]
    with [_idleAnimLength] 45; and after 45 further frames the sheet and the
    pattern are the original ones again and the timer is zero. *)
Theorem scenario_timeline
  (sheet : string) (pat dir : Z) (ts1 ts2 : list Tick) (t t' : Tick) :
  Forall stationary ts1 -> List.length ts1 = 59%nat ->
  stationary t -> lt (roll t) (of_Z 100) = true ->
  Forall stationary ts2 -> List.length ts2 = 44%nat ->
  stationary t' ->
  (forall n : nat, (n <= 59)%nat ->
     isIdling (run scenarioParams (firstn n ts1) (scenarioChar sheet pat dir)) = false)
  /\ isIdling (run scenarioParams (ts1 ++ [t]) (scenarioChar sheet pat dir)) = true
  /\ currentIdleAnim (run scenarioParams (ts1 ++ [t]) (scenarioChar sheet pat dir))
     = Some animA
  /\ characterName (run scenarioParams (ts1 ++ [t]) (scenarioChar sheet pat dir)) = "A"
  /\ idleAnimLength (run scenarioParams (ts1 ++ [t]) (scenarioChar sheet pat dir))
     = (2 - 0 + 1) * 15
  /\ (forall n : nat, (n <= 44)%nat ->
        isIdling (run scenarioParams ((ts1 ++ [t]) ++ firstn n ts2)
                      (scenarioChar sheet pat dir)) = true)
  /\ characterName (run scenarioParams ((ts1 ++ [t]) ++ ts2 ++ [t'])
                        (scenarioChar sheet pat dir)) = sheet
  /\ pattern (run scenarioParams ((ts1 ++ [t]) ++ ts2 ++ [t'])
                  (scenarioChar sheet pat dir)) = pat
  /\ isIdling (run scenarioParams ((ts1 ++ [t]) ++ ts2 ++ [t'])
                   (scenarioChar sheet pat dir)) = false
  /\ idleTimer (run scenarioParams ((ts1 ++ [t]) ++ ts2 ++ [t'])
                    (scenarioChar sheet pat dir)) = zero.
Proof.
  intros Hs1 Hl1 Ht Hr Hs2 Hl2 Ht'.
  pose proof (scenario_trigger sheet pat dir ts1 t Hs1 Hl1 Ht Hr) as Htr.
  pose proof (scenario_playing sheet pat dir (rndPick t)) as Hpl.
  rewrite <- Htr in Hpl.
  assert (Hmid : forall n : nat, (n <= 44)%nat ->
            Playing (scenarioChar sheet pat dir) animA (Z.of_nat n)
              (run scenarioParams ((ts1 ++ [t]) ++ firstn n ts2)
                   (scenarioChar sheet pat dir))).
  { intros n Hn. rewrite run_app.
    assert (Hl : List.length (firstn n ts2) = n) by (rewrite length_firstn; lia).
    pose proof (run_playing scenarioParams (scenarioChar sheet pat dir) animA
                  (firstn n ts2) 0 _
                  (Forall_stationary_firstn n ts2 Hs2) Hpl) as R.
    rewrite Hl, Z.add_0_l in R. apply R. simpl. lia. }
  split.
  { intros n Hn. rewrite scenario_waiting.
    - reflexivity.
    - apply Forall_stationary_firstn. exact Hs1.
    - rewrite length_firstn. lia. }
  destruct Hpl as (Hi & Hc & Hn & Hp & Hk & Hlen).
  split; [exact Hi|]. split; [exact Hc|].
  split.
  { rewrite Htr.
    change (name (chooseAnim [animA] animA (rndPick t)) = "A").
    rewrite chooseAnim_single. reflexivity. }
  split; [exact Hlen|].
  split; [intros n Hle; apply (Hmid n Hle)|].
  pose proof (Hmid 44%nat (Nat.le_refl _)) as Hlast.
  rewrite <- Hl2, firstn_all in Hlast.
  rewrite (app_assoc (ts1 ++ [t]) ts2 [t']), (run_app _ ((ts1 ++ [t]) ++ ts2)).
  simpl run.
  assert (Hfin : (endPattern animA - startPattern animA + 1) * 15
                 <= Z.of_nat (List.length ts2) + 1) by (rewrite Hl2; simpl; lia).
  destruct (playing_complete scenarioParams _ animA _ t' _ Ht' Hlast Hfin)
    as (H1 & H2 & H3 & _ & H5 & _).
  repeat split; assumption.
Qed.

Lemma scenario_timeline_witness :
  lt (roll stillTick) (of_Z 100) = true
  /\ isIdling (run scenarioParams (repeat stillTick 59 ++ [stillTick])
                   (scenarioChar "Hero" 1 2)) = true
  /\ characterName (run scenarioParams
                        ((repeat stillTick 59 ++ [stillTick])
                           ++ repeat stillTick 44 ++ [stillTick])
                        (scenarioChar "Hero" 1 2)) = "Hero".
Proof.
  split; [vm_compute; reflexivity|].
  destruct (scenario_timeline "Hero" 1 2 (repeat stillTick 59)
              (repeat stillTick 44) stillTick stillTick)
    as (_ & Hi & _ & _ & _ & _ & Hn & _).
  - apply Forall_stationary_repeat. exact stillTick_stationary.
  - reflexivity.
  - exact stillTick_stationary.
  - vm_compute. reflexivity.
  - apply Forall_stationary_repeat. exact stillTick_stationary.
  - reflexivity.
  - exact stillTick_stationary.
  - split; assumption.
Defined.

(** ** Strings and patterns *)

Section Patterns.

Lemma eq_ci_refl (a : ascii) : eq_ci a a = true.
Proof. unfold eq_ci. apply Ascii.eqb_refl. Qed.

Lemma allChars_app (cls : ascii -> bool) (s1 s2 : string) :
  allChars cls (s1 ++ s2) = allChars cls s1 && allChars cls s2.
Proof.
  induction s1 as [|a s1 IH]; simpl; [reflexivity|].
  rewrite IH. apply andb_assoc.
Qed.

Lemma allChars_weaken (cls1 cls2 : ascii -> bool) (s : string) :
  (forall a, cls1 a = true -> cls2 a = true) ->
  allChars cls1 s = true -> allChars cls2 s = true.
Proof.
  intros Hw. induction s as [|a s IH]; simpl; [reflexivity|].
  intros H. apply andb_true_iff in H. destruct H as [Ha Hs].
  rewrite (Hw a Ha), (IH Hs). reflexivity.
Qed.

Lemma headIn_app (cls : ascii -> bool) (s1 s2 : string) :
  s1 <> EmptyString -> headIn cls (s1 ++ s2) = headIn cls s1.
Proof. destruct s1; [congruence | reflexivity]. Qed.

Lemma headIn_nonempty (cls : ascii -> bool) (s : string) :
  headIn cls s = true -> s <> EmptyString.
Proof. destruct s; simpl; congruence. Qed.

Lemma isSpace_notLt (a : ascii) : isSpace a = true -> notLt a = true.
Proof.
  destruct a as [[] [] [] [] [] [] [] []]; vm_compute; congruence.
Qed.

Lemma isDigit_notLt (a : ascii) : isDigit a = true -> notLt a = true.
Proof.
  destruct a as [[] [] [] [] [] [] [] []]; vm_compute; congruence.
Qed.

Lemma isDigit_notSpace (a : ascii) : isDigit a = true -> isSpace a = false.
Proof.
  destruct a as [[] [] [] [] [] [] [] []]; vm_compute; congruence.
Qed.

Lemma string_length_app (s1 s2 : string) :
  String.length (s1 ++ s2) = (String.length s1 + String.length s2)%nat.
Proof. induction s1 as [|a s1 IH]; simpl; [reflexivity | now rewrite IH]. Qed.

Lemma string_app_assoc (s1 s2 s3 : string) :
  (s1 ++ s2) ++ s3 = s1 ++ s2 ++ s3.
Proof. induction s1 as [|a s1 IH]; simpl; [reflexivity | now rewrite IH]. Qed.

Lemma substring_prefix (w rest : string) :
  substring 0 (String.length w) (w ++ rest) = w.
Proof.
  induction w as [|a w IH]; simpl.
  - destruct rest; reflexivity.
  - rewrite IH. reflexivity.
Qed.

Lemma consumed_app (w rest : string) : consumed (w ++ rest) rest = w.
Proof.
  unfold consumed. rewrite string_length_app.
  replace (String.length w + String.length rest - String.length rest)%nat
    with (String.length w) by lia.
  apply substring_prefix.
Qed.

(** *** The matcher succeeds on what the patterns describe *)

Lemma star_greedy (cls : ascii -> bool) (w rest : string)
      (caps : captures) (k : cont) (res : captures) :
  allChars cls w = true -> headIn cls rest = false ->
  k rest caps = Some res ->
  star cls (w ++ rest) caps k = Some res.
Proof.
  intros Hw Hr Hk. induction w as [|a w IH]; simpl.
  - destruct rest as [|b rest]; simpl; [exact Hk|].
    simpl in Hr. rewrite Hr. exact Hk.
  - simpl in Hw. apply andb_true_iff in Hw. destruct Hw as [Ha Hw].
    rewrite Ha, (IH Hw). reflexivity.
Qed.

Lemma seq_chr (c : ascii) (r : regex) (s : string) (caps : captures) (k : cont) :
  rmatch (Seq (Chr c) r) (String c s) caps k = rmatch r s caps k.
Proof. simpl. rewrite eq_ci_refl. reflexivity. Qed.

Lemma seq_chr_fail (c a : ascii) (r : regex) (s : string)
      (caps : captures) (k : cont) :
  eq_ci a c = false -> rmatch (Seq (Chr c) r) (String a s) caps k = None.
Proof. intros H. simpl. rewrite H. reflexivity. Qed.

Lemma seq_star (cls : ascii -> bool) (r : regex) (w rest : string)
      (caps : captures) (k : cont) (res : captures) :
  allChars cls w = true -> headIn cls rest = false ->
  rmatch r rest caps k = Some res ->
  rmatch (Seq (Star cls) r) (w ++ rest) caps k = Some res.
Proof. intros Hw Hr Hk. simpl. apply star_greedy; assumption. Qed.

Lemma group_plus (n : nat) (cls : ascii -> bool) (w rest : string)
      (caps : captures) (k : cont) (res : captures) :
  headIn cls w = true -> allChars cls w = true -> headIn cls rest = false ->
  k rest (setCapture n w caps) = Some res ->
  rmatch (Group n (Plus cls)) (w ++ rest) caps k = Some res.
Proof.
  intros Hh Hw Hr Hk. destruct w as [|a w]; [discriminate|].
  simpl in Hh, Hw. simpl rmatch. rewrite Hh.
  apply andb_true_iff in Hw. destruct Hw as [_ Hw].
  apply star_greedy; auto.
  change (String a (w ++ rest)) with (String a w ++ rest).
  rewrite consumed_app. exact Hk.
Qed.

Lemma seq_group_plus (n : nat) (cls : ascii -> bool) (r : regex)
      (w rest : string) (caps : captures) (k : cont) (res : captures) :
  headIn cls w = true -> allChars cls w = true -> headIn cls rest = false ->
  rmatch r rest (setCapture n w caps) k = Some res ->
  rmatch (Seq (Group n (Plus cls)) r) (w ++ rest) caps k = Some res.
Proof.
  intros Hh Hw Hr Hk. change (rmatch (Seq (Group n (Plus cls)) r) (w ++ rest) caps k)
    with (rmatch (Group n (Plus cls)) (w ++ rest) caps
                 (fun s' caps' => rmatch r s' caps' k)).
  apply group_plus; assumption.
Qed.

Lemma rmatch_lits (pre : string) (r : regex) (rest : string)
      (caps : captures) (k : cont) :
  rmatch (lits pre r) (pre ++ rest) caps k = rmatch r rest caps k.
Proof.
  induction pre as [|a pre IH]; simpl; [reflexivity|].
  rewrite eq_ci_refl. exact IH.
Qed.

Lemma search_here (r : regex) (s : string) (caps : captures) :
  rmatch r s noCaptures accept = Some caps -> search r s = Some caps.
Proof. intros H. destruct s; simpl; rewrite H; reflexivity. Qed.

Lemma search_skip (r : regex) (a : ascii) (s : string) :
  rmatch r (String a s) noCaptures accept = None ->
  search r (String a s) = search r s.
Proof. intros H. simpl. rewrite H. reflexivity. Qed.

(** A pattern that starts with [<] matches nowhere in a string without
    [<]. *)
Lemma search_without_lt (r : regex) (s : string) :
  allChars notLt s = true -> search (Seq (Chr "<") r) s = None.
Proof.
  induction s as [|a s IH]; intros H.
  - reflexivity.
  - simpl in H. apply andb_true_iff in H. destruct H as [Ha Hs].
    rewrite search_skip.
    + apply IH. exact Hs.
    + apply seq_chr_fail. unfold notLt in Ha.
      apply negb_true_iff. exact Ha.
Qed.

End Patterns.

(** ** Tag lines *)

Section TagLines.

Lemma keptByTrimEnd_app (s1 s2 : string) :
  keptByTrimEnd s2 -> keptByTrimEnd (s1 ++ s2).
Proof.
  unfold keptByTrimEnd.
  intros [Hne Ht]. induction s1 as [|a s1 [IHne IHt]]; simpl.
  - split; assumption.
  - split; [discriminate|].
    rewrite IHt. destruct (s1 ++ s2); [congruence | reflexivity].
Qed.

Lemma trim_tag (body : string) :
  trim ("<" ++ body ++ ">") = "<" ++ body ++ ">".
Proof.
  unfold trim. change (trimStart ("<" ++ body ++ ">")) with ("<" ++ body ++ ">").
  apply (keptByTrimEnd_app "<" (body ++ ">")).
  apply (keptByTrimEnd_app body ">").
  split; [discriminate | reflexivity].
Qed.

Lemma no_MinTime_in_anim_tag (body : string) :
  allChars notLt body = true ->
  search reMinTime ("<IdleAnim:" ++ body) = None.
Proof.
  intros H. cbn [append].
  do 10 (rewrite search_skip by (vm_compute; reflexivity)).
  apply (search_without_lt _ body H).
Qed.

Lemma no_MaxTime_in_anim_tag (body : string) :
  allChars notLt body = true ->
  search reMaxTime ("<IdleAnim:" ++ body) = None.
Proof.
  intros H. cbn [append].
  do 10 (rewrite search_skip by (vm_compute; reflexivity)).
  apply (search_without_lt _ body H).
Qed.

End TagLines.

Section AnimTag.

Variables ws1 name ws2 d1 ws3 d2 : string.

Hypothesis fields : tagFields ws1 name ws2 d1 ws3 d2 = true.

Lemma headIn_notSpace (s : string) :
  headIn notSpace s = true -> headIn isSpace s = false.
Proof.
  destruct s as [|a s]; simpl; [reflexivity|].
  unfold notSpace. apply negb_true_iff.
Qed.

Lemma headIn_digit_not_space (s : string) :
  headIn isDigit s = true -> headIn isSpace s = false.
Proof.
  destruct s as [|a s]; simpl; [reflexivity|]. apply isDigit_notSpace.
Qed.

Lemma allChars_headIn (cls : ascii -> bool) (s : string) :
  s <> EmptyString -> allChars cls s = true -> headIn cls s = true.
Proof.
  destruct s as [|a s]; [congruence|]. simpl. intros _ H.
  apply andb_true_iff in H. apply H.
Qed.

(** The pattern matches the tag at its first character, and what is
    captured is decided by what follows the end pattern. *)
Lemma search_anim_tag (tail : string) (caps : captures) :
  headIn isDigit tail = false ->
  rmatch reProbability tail (fieldCaptures name d1 d2) accept = Some caps ->
  search reIdleAnim (animTag ws1 name ws2 d1 ws3 d2 tail) = Some caps.
Proof.
  intros Htail Hopt.
  pose proof fields as F. unfold tagFields in F.
  rewrite !andb_true_iff in F.
  destruct F as (((((((((F1 & F2) & F3) & F4) & F5) & F6) & F7) & F8) & F9) & F10).
  pose proof (headIn_nonempty _ _ F4) as Nname.
  pose proof (headIn_nonempty _ _ F7) as Nd1.
  pose proof (headIn_nonempty _ _ F9) as Nd2.
  unfold animTag, reIdleAnim. apply search_here. rewrite rmatch_lits.
  apply seq_star; [exact F1 | |].
  { rewrite headIn_app by exact Nname. apply headIn_notSpace. exact F4. }
  apply seq_group_plus; [apply allChars_headIn; assumption | exact F5 | reflexivity |].
  change ("," ++ ws2 ++ d1 ++ "," ++ ws3 ++ d2 ++ tail)
    with (String "," (ws2 ++ d1 ++ "," ++ ws3 ++ d2 ++ tail)).
  rewrite seq_chr.
  apply seq_star; [exact F2 | |].
  { rewrite headIn_app by exact Nd1. apply headIn_digit_not_space. exact F7. }
  apply seq_group_plus; [exact F7 | exact F8 | reflexivity |].
  change ("," ++ ws3 ++ d2 ++ tail) with (String "," (ws3 ++ d2 ++ tail)).
  rewrite seq_chr.
  apply seq_star; [exact F3 | |].
  { rewrite headIn_app by exact Nd2. apply headIn_digit_not_space. exact F9. }
  apply seq_group_plus; [exact F9 | exact F10 | exact Htail |].
  exact Hopt.
Qed.

Lemma anim_tag_without_lt (tail : string) :
  allChars notLt tail = true ->
  allChars notLt (ws1 ++ name ++ "," ++ ws2 ++ d1 ++ "," ++ ws3 ++ d2 ++ tail) = true.
Proof.
  intros Htail.
  pose proof fields as F. unfold tagFields in F.
  rewrite !andb_true_iff in F.
  destruct F as (((((((((F1 & F2) & F3) & F4) & F5) & F6) & F7) & F8) & F9) & F10).
  rewrite !allChars_app.
  rewrite (allChars_weaken _ _ ws1 isSpace_notLt F1).
  rewrite (allChars_weaken _ _ ws2 isSpace_notLt F2).
  rewrite (allChars_weaken _ _ ws3 isSpace_notLt F3).
  rewrite (allChars_weaken _ _ d1 isDigit_notLt F8).
  rewrite (allChars_weaken _ _ d2 isDigit_notLt F10).
  rewrite F6, Htail. reflexivity.
Qed.

Lemma parseInt_digits (d : string) :
  headIn isDigit d = true -> parseInt d = Some (digitsValue 0 d).
Proof.
  destruct d as [|a d]; simpl; [discriminate|].
  intros H. rewrite H. reflexivity.
Qed.

(** What [parseLine] does with a tag that ends in [tail ++ ">"], given the
    captures of the match. *)
Lemma parseLine_anim_tag (acc : Notetags) (tail : string) (caps : captures) :
  allChars notLt tail = true -> headIn isDigit (tail ++ ">") = false ->
  rmatch reProbability (tail ++ ">") (fieldCaptures name d1 d2) accept = Some caps ->
  dollar caps 1 = name -> dollar caps 2 = d1 -> dollar caps 3 = d2 ->
  parseLine acc (animTag ws1 name ws2 d1 ws3 d2 (tail ++ ">"))
  = pushAnim (mkIdleAnim (trim name) (digitsValue 0 d1) (digitsValue 0 d2)
                         (orHundred (parseInt (dollar caps 4))))
             acc.
Proof.
  intros Hlt Hhd Hopt C1 C2 C3.
  pose proof fields as F. unfold tagFields in F.
  rewrite !andb_true_iff in F.
  destruct F as (((((((((F1 & F2) & F3) & F4) & F5) & F6) & F7) & F8) & F9) & F10).
  unfold parseLine.
  assert (Htrim : trim (animTag ws1 name ws2 d1 ws3 d2 (tail ++ ">"))
                  = animTag ws1 name ws2 d1 ws3 d2 (tail ++ ">")).
  { unfold animTag.
    pose proof (trim_tag ("IdleAnim:" ++ ws1 ++ name ++ "," ++ ws2 ++ d1 ++ ","
                            ++ ws3 ++ d2 ++ tail)) as T.
    rewrite !string_app_assoc in T. exact T. }
  rewrite Htrim.
  assert (Hbody : allChars notLt
            (ws1 ++ name ++ "," ++ ws2 ++ d1 ++ "," ++ ws3 ++ d2 ++ tail ++ ">")
          = true).
  { apply anim_tag_without_lt. rewrite allChars_app, Hlt. reflexivity. }
  unfold animTag at 1. rewrite (no_MinTime_in_anim_tag _ Hbody).
  unfold animTag at 1. rewrite (no_MaxTime_in_anim_tag _ Hbody).
  rewrite (search_anim_tag (tail ++ ">") caps Hhd Hopt).
  rewrite C1, C2, C3.
  rewrite (parseInt_digits d1 F7), (parseInt_digits d2 F9).
  reflexivity.
Qed.

End AnimTag.

(** ** Every match of the engine is a match of the pattern *)

Section Soundness.

Lemma star_sound (cls : ascii -> bool) (s : string) (caps : captures)
      (k : cont) (res : captures) :
  star cls s caps k = Some res ->
  exists w s', s = w ++ s' /\ allChars cls w = true /\ k s' caps = Some res.
Proof.
  induction s as [|a s IH]; simpl; intros H.
  - exists EmptyString, EmptyString. auto.
  - destruct (cls a) eqn:Ha.
    + destruct (star cls s caps k) as [r|] eqn:E.
      * destruct (IH H) as (w & s' & Hs & Hw & Hk).
        exists (String a w), s'. subst s. simpl. rewrite Ha, Hw. auto.
      * exists EmptyString, (String a s). auto.
    + exists EmptyString, (String a s). auto.
Qed.

Lemma rmatch_sound (r : regex) :
  forall (s : string) (caps : captures) (k : cont) (res : captures),
    rmatch r s caps k = Some res ->
    exists s' caps', matches r s caps s' caps' /\ k s' caps' = Some res.
Proof.
  induction r as [c | cls | cls | n r IH | r IH | r1 IH1 r2 IH2];
    intros s caps k res H; simpl in H.
  - destruct s as [|a s]; [discriminate|].
    destruct (eq_ci a c) eqn:E; [|discriminate].
    exists s, caps. split; [|exact H]. exists a. auto.
  - destruct (star_sound cls s caps k res H) as (w & s' & Hs & Hw & Hk).
    exists s', caps. split; [|exact Hk]. exists w. auto.
  - destruct s as [|a s]; [discriminate|].
    destruct (cls a) eqn:E; [|discriminate].
    destruct (star_sound cls s caps k res H) as (w & s' & Hs & Hw & Hk).
    exists s', caps. split; [|exact Hk]. exists a, w. subst s. auto.
  - destruct (IH _ _ _ _ H) as (s' & caps1 & Hm & Hk).
    exists s', (setCapture n (consumed s s') caps1). split; [|exact Hk].
    exists caps1. auto.
  - destruct (rmatch r s caps k) as [x|] eqn:E.
    + destruct (IH _ _ _ _ E) as (s' & caps' & Hm & Hk).
      exists s', caps'. split; [left; exact Hm|]. congruence.
    + exists s, caps. split; [right; auto | exact H].
  - destruct (IH1 _ _ _ _ H) as (s1 & caps1 & Hm1 & Hk1).
    destruct (IH2 _ _ _ _ Hk1) as (s' & caps' & Hm2 & Hk).
    exists s', caps'. split; [|exact Hk]. exists s1, caps1. auto.
Qed.

Lemma search_sound (r : regex) (s : string) (caps : captures) :
  search r s = Some caps ->
  exists s0 s', matches r s0 noCaptures s' caps.
Proof.
  induction s as [|a s IH]; simpl; intros H.
  - destruct (rmatch r EmptyString noCaptures accept) as [x|] eqn:E;
      [|discriminate].
    destruct (rmatch_sound r _ _ _ _ E) as (s' & caps' & Hm & Hk).
    inversion H; subst. inversion Hk; subst. eauto.
  - destruct (rmatch r (String a s) noCaptures accept) as [x|] eqn:E.
    + destruct (rmatch_sound r _ _ _ _ E) as (s' & caps' & Hm & Hk).
      inversion H; subst. inversion Hk; subst. eauto.
    + apply IH. exact H.
Qed.

Lemma matches_lits (pre : string) (r : regex) :
  forall (s : string) (caps : captures) (s' : string) (caps' : captures),
    matches (lits pre r) s caps s' caps' ->
    exists s1, matches r s1 caps s' caps'.
Proof.
  induction pre as [|a pre IH]; intros s caps s' caps' H; simpl in H.
  - eauto.
  - destruct H as (s1 & caps1 & (b & _ & _ & Hc) & H2). subst caps1.
    eapply IH. exact H2.
Qed.

(** Groups 2 and 3 of [reIdleAnim] capture text that starts with a digit,
    so [parseInt] of them is a number. *)
Lemma reIdleAnim_groups (line : string) (caps : captures) :
  search reIdleAnim line = Some caps ->
  exists start end_ : Z,
    parseInt (dollar caps 2) = Some start /\ parseInt (dollar caps 3) = Some end_.
Proof.
  intros H. destruct (search_sound _ _ _ H) as (s0 & s' & M).
  unfold reIdleAnim in M. apply matches_lits in M. destruct M as (s1 & M).
  simpl in M.
  destruct M as (s2 & c2 & (w1 & _ & _ & E2) & M). subst c2.
  destruct M as (s3 & c3 & (c3' & (a & w & _ & _ & _ & E3') & E3) & M).
  subst c3' c3.
  destruct M as (s4 & c4 & (b4 & _ & _ & E4) & M). subst c4.
  destruct M as (s5 & c5 & (w5 & _ & _ & E5) & M). subst c5.
  destruct M as (s6 & c6 & (c6' & (a6 & w6 & Hs6 & Ha6 & _ & E6') & E6) & M).
  subst c6' c6.
  destruct M as (s7 & c7 & (b7 & _ & _ & E7) & M). subst c7.
  destruct M as (s8 & c8 & (w8 & _ & _ & E8) & M). subst c8.
  destruct M as (s9 & c9 & (c9' & (a9 & w9 & Hs9 & Ha9 & _ & E9') & E9) & M).
  subst c9' c9.
  assert (G3 : consumed s8 s9 = String a9 w9)
    by (rewrite Hs9; apply (consumed_app (String a9 w9) s9)).
  assert (G2 : consumed s5 s6 = String a6 w6)
    by (rewrite Hs6; apply (consumed_app (String a6 w6) s6)).
  assert (Hcaps : dollar caps 2 = String a6 w6 /\ dollar caps 3 = String a9 w9).
  { destruct M as [M | [_ M]].
    - destruct M as (s10 & c10 & (b10 & _ & _ & E10) & M). subst c10.
      destruct M as (s11 & c11 & (w11 & _ & _ & E11) & M). subst c11.
      destruct M as (c12 & (a12 & w12 & _ & _ & _ & E12) & M). subst c12 caps.
      unfold dollar, setCapture. simpl. rewrite G2, G3. auto.
    - subst caps. unfold dollar, setCapture. simpl. rewrite G2, G3. auto. }
  destruct Hcaps as [H2 H3]. rewrite H2, H3.
  exists (digitsValue 0 (String a6 w6)), (digitsValue 0 (String a9 w9)).
  simpl. rewrite Ha6, Ha9. auto.
Qed.

End Soundness.

(** ** Notes *)

Section Notes.

Lemma split_lines_nonempty (s : string) : split_lines s <> [].
Proof.
  destruct s as [|a s]; simpl; [discriminate|].
  destruct (code a =? 10); [discriminate|].
  destruct (split_lines s); discriminate.
Qed.

Lemma split_lines_cons (a : ascii) (s : string) :
  split_lines (String a s)
  = if code a =? 10 then EmptyString :: split_lines s
    else match split_lines s with
         | l :: ls => String a l :: ls
         | [] => [String a EmptyString]
         end.
Proof. reflexivity. Qed.

Lemma split_lines_app (s1 s2 : string) :
  split_lines (s1 ++ nl ++ s2) = (split_lines s1 ++ split_lines s2)%list.
Proof.
  induction s1 as [|a s1 IH].
  - reflexivity.
  - change (String a s1 ++ nl ++ s2) with (String a (s1 ++ nl ++ s2)).
    rewrite !split_lines_cons, IH.
    destruct (code a =? 10); [reflexivity|].
    pose proof (split_lines_nonempty s1) as Hne.
    destruct (split_lines s1) as [|l ls]; [congruence | reflexivity].
Qed.

Lemma split_lines_single (s : string) :
  allChars notNewline s = true -> split_lines s = [s].
Proof.
  induction s as [|a s IH]; simpl; [reflexivity|].
  intros H. apply andb_true_iff in H. destruct H as [Ha Hs].
  unfold notNewline in Ha. apply negb_true_iff in Ha.
  rewrite Ha, (IH Hs). reflexivity.
Qed.

(** A note with the line [line] between the texts [pre] and [post]. *)
Lemma parseNote_line (pre line post : string) :
  allChars notNewline line = true ->
  parseNote (pre ++ nl ++ line ++ nl ++ post)
  = fold_left parseLine (split_lines post) (parseLine (parseNote pre) line).
Proof.
  intros H. unfold parseNote.
  rewrite split_lines_app, split_lines_app, (split_lines_single line H).
  rewrite fold_left_app. reflexivity.
Qed.

Lemma parseLine_keeps (d : IdleAnim) (acc : Notetags) (line : string) :
  In d (idleAnims acc) -> In d (idleAnims (parseLine acc line)).
Proof.
  intros H. unfold parseLine.
  destruct (search reMinTime (trim line)); [exact H|].
  destruct (search reMaxTime (trim line)); [exact H|].
  destruct (search reIdleAnim (trim line)); [|exact H].
  destruct (parseInt _); [|exact H].
  destruct (parseInt _); [|exact H].
  simpl. apply in_or_app. left. exact H.
Qed.

Lemma fold_parseLine_keeps (d : IdleAnim) (lines : list string) :
  forall acc : Notetags,
    In d (idleAnims acc) -> In d (idleAnims (fold_left parseLine lines acc)).
Proof.
  induction lines as [|l lines IH]; intros acc H; simpl; [exact H|].
  apply IH. apply parseLine_keeps. exact H.
Qed.

Lemma orHundred_nonzero (v : option Z) : orHundred v <> 0.
Proof.
  destruct v as [z|]; simpl; [|lia].
  destruct (z =? 0) eqn:E; [lia|]. apply Z.eqb_neq. exact E.
Qed.

Lemma parseLine_nonzero (acc : Notetags) (line : string) :
  Forall (fun d => probability d <> 0) (idleAnims acc) ->
  Forall (fun d => probability d <> 0) (idleAnims (parseLine acc line)).
Proof.
  intros H. unfold parseLine.
  destruct (search reMinTime (trim line)); [exact H|].
  destruct (search reMaxTime (trim line)); [exact H|].
  destruct (search reIdleAnim (trim line)); [|exact H].
  destruct (parseInt _); [|exact H].
  destruct (parseInt _); [|exact H].
  simpl. apply Forall_app. split; [exact H|].
  constructor; [|constructor]. simpl. apply orHundred_nonzero.
Qed.

Lemma parseNote_nonzero (note : string) :
  Forall (fun d => probability d <> 0) (idleAnims (parseNote note)).
Proof.
  unfold parseNote.
  assert (G : forall lines acc,
             Forall (fun d => probability d <> 0) (idleAnims acc) ->
             Forall (fun d => probability d <> 0)
                    (idleAnims (fold_left parseLine lines acc))).
  { induction lines as [|l lines IH]; intros acc H; simpl; [exact H|].
    apply IH. apply parseLine_nonzero. exact H. }
  apply G. constructor.
Qed.

Lemma loadIdleNotetags_anims (note : string) (c : Character) :
  note <> EmptyString ->
  idleAnimations (loadIdleNotetags note c) = idleAnims (parseNote note).
Proof. destruct note; [congruence | reflexivity]. Qed.

End Notes.

(** C7 (as stated, refuted).  The line [IdleAnim: Foo, 0, 2] has no [<] in
    front of the tag name, the pattern does not match it, and loading it
    leaves the character without a definition. *)
Lemma bare_tag_is_not_recognised :
  parseNote "IdleAnim: Foo, 0, 2" = noTags
  /\ idleAnimations (loadIdleNotetags "IdleAnim: Foo, 0, 2" hero) = [].
Proof. split; vm_compute; reflexivity. Qed.

(** C7 (amended).  A line [<IdleAnim: name, start, end>] without a
    probability field yields the weight 100: in a note that holds such a line
    between the texts [pre] and [post], with start and end fields below 2^53
    (where [parseInt] is exact), the definition with the trimmed name, the
    two patterns and probability 100 is appended to the definitions read
    from [pre], and it is among the definitions of the character afterwards.
    In particular the note [<IdleAnim: Foo, 0, 2>] gives the one definition
    [Foo, 0, 2, 100]. *)
Theorem omitted_probability_is_100
  (pre post ws1 name ws2 d1 ws3 d2 : string) (c : Character) :
  tagFields ws1 name ws2 d1 ws3 d2 = true ->
  exactField d1 -> exactField d2 ->
  allChars notNewline (animTag ws1 name ws2 d1 ws3 d2 ">") = true ->
  parseNote (pre ++ nl ++ animTag ws1 name ws2 d1 ws3 d2 ">" ++ nl ++ post)
  = fold_left parseLine (split_lines post)
      (pushAnim (mkIdleAnim (trim name) (digitsValue 0 d1) (digitsValue 0 d2) 100)
                (parseNote pre))
  /\ In (mkIdleAnim (trim name) (digitsValue 0 d1) (digitsValue 0 d2) 100)
        (idleAnimations
           (loadIdleNotetags
              (pre ++ nl ++ animTag ws1 name ws2 d1 ws3 d2 ">" ++ nl ++ post) c))
  /\ idleAnimations (loadIdleNotetags "<IdleAnim: Foo, 0, 2>" c)
     = [mkIdleAnim "Foo" 0 2 100].
Proof.
  intros F _ _ Hnl.
  assert (Hline : forall acc,
            parseLine acc (animTag ws1 name ws2 d1 ws3 d2 ">")
            = pushAnim (mkIdleAnim (trim name) (digitsValue 0 d1)
                                   (digitsValue 0 d2) 100) acc).
  { intros acc.
    apply (parseLine_anim_tag ws1 name ws2 d1 ws3 d2 F acc EmptyString
             (setCapture 3 d2 (setCapture 2 d1 (setCapture 1 name noCaptures))));
      reflexivity. }
  assert (Hnote : parseNote (pre ++ nl ++ animTag ws1 name ws2 d1 ws3 d2 ">" ++ nl ++ post)
                  = fold_left parseLine (split_lines post)
                      (pushAnim (mkIdleAnim (trim name) (digitsValue 0 d1)
                                            (digitsValue 0 d2) 100)
                                (parseNote pre))).
  { rewrite (parseNote_line pre _ post Hnl), Hline. reflexivity. }
  split; [exact Hnote|]. split.
  - rewrite loadIdleNotetags_anims by (destruct pre; discriminate).
    rewrite Hnote. apply fold_parseLine_keeps. simpl.
    apply in_or_app. right. left. reflexivity.
  - rewrite loadIdleNotetags_anims by discriminate. vm_compute. reflexivity.
Qed.

Lemma omitted_probability_is_100_witness :
  tagFields " " "Hero_IdleBlink " " " "0" " " "2" = true
  /\ exactField "0" /\ exactField "2"
  /\ In (mkIdleAnim "Hero_IdleBlink" 0 2 100)
        (idleAnimations
           (loadIdleNotetags
              ("<IdleAnimMinTime: 4.0>" ++ nl
                 ++ animTag " " "Hero_IdleBlink " " " "0" " " "2" ">" ++ nl
                 ++ "some other text") hero)).
Proof.
  assert (E0 : exactField "0") by (vm_compute; reflexivity).
  assert (E2 : exactField "2") by (vm_compute; reflexivity).
  split; [reflexivity|]. split; [exact E0|]. split; [exact E2|].
  destruct (omitted_probability_is_100 "<IdleAnimMinTime: 4.0>" "some other text"
              " " "Hero_IdleBlink " " " "0" " " "2" hero eq_refl E0 E2 eq_refl)
    as (_ & H & _).
  exact H.
Defined.

(** C8 (as stated, refuted).  No note makes the probability check of a
    character use a value of its own: whatever note was loaded, on a frame
    where the gate is open and the maximum is not exceeded, the character
    starts idling exactly when the roll is below the plugin parameter
    [DEFAULT_PROB]. *)
Lemma no_per_character_probability :
  ~ (exists (note : string) (p : Params) (t : Tick) (c : Character),
       idleAnimations (loadIdleNotetags note c) <> []
       /\ stationary t
       /\ isIdling (loadIdleNotetags note c) = false
       /\ ge (add (idleTimer (loadIdleNotetags note c)) frameTime)
             (idleMinTime (loadIdleNotetags note c)) = true
       /\ gt (add (idleTimer (loadIdleNotetags note c)) frameTime)
             (idleMaxTime (loadIdleNotetags note c)) = false
       /\ isIdling (updateIdle p t (loadIdleNotetags note c))
          <> lt (roll t) (DEFAULT_PROB p)).
Proof.
  intros (note & p & t & c & Hne & Hs & Hi & Hg & Hm & Hdiff).
  apply Hdiff. rewrite (trigger_iff p t _ Hne Hs Hi Hg), Hm. reflexivity.
Qed.

(** C8 (amended).  The notes override [minIdleTime] and [maxIdleTime] per
    character and nothing else: [<IdleAnimMinTime: 3.0>] and
    [<IdleAnimMaxTime: 8.0>] set the two times of the character to 3 and 8, a
    note without these tags leaves them as they were, and for every note the
    trigger of the character that loaded it compares the roll with the
    plugin-wide [DEFAULT_PROB]. *)
Theorem only_times_are_overridable
  (note : string) (p : Params) (t : Tick) (c : Character) :
  idleAnimations (loadIdleNotetags note c) <> [] ->
  stationary t ->
  isIdling (loadIdleNotetags note c) = false ->
  ge (add (idleTimer (loadIdleNotetags note c)) frameTime)
     (idleMinTime (loadIdleNotetags note c)) = true ->
  isIdling (updateIdle p t (loadIdleNotetags note c))
  = gt (add (idleTimer (loadIdleNotetags note c)) frameTime)
       (idleMaxTime (loadIdleNotetags note c))
    || lt (roll t) (DEFAULT_PROB p)
  /\ idleMinTime (loadIdleNotetags "<IdleAnimMinTime: 3.0>" c) = of_Z 3
  /\ idleMaxTime (loadIdleNotetags "<IdleAnimMinTime: 3.0>" c) = idleMaxTime c
  /\ idleMaxTime (loadIdleNotetags "<IdleAnimMaxTime: 8.0>" c) = of_Z 8
  /\ idleMinTime (loadIdleNotetags "<IdleAnimMaxTime: 8.0>" c) = idleMinTime c
  /\ idleMinTime (loadIdleNotetags "<IdleAnim: Foo, 0, 2, 70>" c) = idleMinTime c
  /\ idleMaxTime (loadIdleNotetags "<IdleAnim: Foo, 0, 2, 70>" c) = idleMaxTime c.
Proof.
  intros Hne Hs Hi Hg. split.
  - apply trigger_iff; assumption.
  - assert (P1 : parseNote "<IdleAnimMinTime: 3.0>"
                 = mkNotetags [] (Some (of_Z 3)) None) by (vm_compute; reflexivity).
    assert (P2 : parseNote "<IdleAnimMaxTime: 8.0>"
                 = mkNotetags [] None (Some (of_Z 8))) by (vm_compute; reflexivity).
    assert (P3 : parseNote "<IdleAnim: Foo, 0, 2, 70>"
                 = mkNotetags [mkIdleAnim "Foo" 0 2 70] None None)
      by (vm_compute; reflexivity).
    unfold loadIdleNotetags. rewrite P1, P2, P3. simpl. repeat split.
Qed.

Lemma only_times_are_overridable_witness :
  idleMinTime (loadIdleNotetags tagsNote hero) = of_Z 1
  /\ isIdling (updateIdle zeroProbParams stillTick
                 (withTimer (of_Z 1) (loadIdleNotetags tagsNote hero)))
     = lt (roll stillTick) (DEFAULT_PROB zeroProbParams).
Proof.
  split; [vm_compute; reflexivity|].
  destruct (only_times_are_overridable tagsNote zeroProbParams stillTick
              (withTimer (of_Z 1) hero)) as (H & _).
  - vm_compute. discriminate.
  - exact stillTick_stationary.
  - vm_compute. reflexivity.
  - vm_compute. reflexivity.
  - exact H.
Defined.

(** C9. A tag [<IdleAnim: name, start, end, 0>] whose probability field is
    the digit 0 yields the definition with probability 100, as a tag without
    the field does (its patterns are the values of the start and end fields,
    taken below 2^53, where [parseInt] is exact), and no note yields a
    definition of probability 0. *)
Theorem zero_probability_parses_as_100
  (acc : Notetags) (ws1 name ws2 d1 ws3 d2 ws4 note : string) (d : IdleAnim) :
  tagFields ws1 name ws2 d1 ws3 d2 = true ->
  exactField d1 -> exactField d2 ->
  allChars isSpace ws4 = true ->
  parseLine acc (animTag ws1 name ws2 d1 ws3 d2 ("," ++ ws4 ++ "0" ++ ">"))
  = pushAnim (mkIdleAnim (trim name) (digitsValue 0 d1) (digitsValue 0 d2) 100) acc
  /\ (In d (idleAnims (parseNote note)) -> probability d <> 0).
Proof.
  intros F _ _ Hws. split.
  - replace ("," ++ ws4 ++ "0" ++ ">") with (("," ++ ws4 ++ "0") ++ ">")
      by (rewrite !string_app_assoc; reflexivity).
    apply (parseLine_anim_tag ws1 name ws2 d1 ws3 d2 F acc ("," ++ ws4 ++ "0")
             (setCapture 4 "0"
                (setCapture 3 d2 (setCapture 2 d1 (setCapture 1 name noCaptures))))).
    + simpl. rewrite allChars_app.
      rewrite (allChars_weaken _ _ ws4 isSpace_notLt Hws). reflexivity.
    + reflexivity.
    + unfold reProbability.
      change (rmatch (Opt ?r) ?s ?caps ?k)
        with (match rmatch r s caps k with Some res => Some res | None => k s caps end).
      replace (("," ++ ws4 ++ "0") ++ ">") with (String "," (ws4 ++ "0" ++ ">"))
        by (rewrite !string_app_assoc; reflexivity).
      rewrite seq_chr.
      assert (G : rmatch (Seq (Star isSpace) (Group 4 (Plus isDigit)))
                    (ws4 ++ "0" ++ ">") (fieldCaptures name d1 d2) accept
                  = Some (setCapture 4 "0" (fieldCaptures name d1 d2))).
      { apply seq_star; [exact Hws | reflexivity |].
        apply (group_plus 4 isDigit "0" ">"); reflexivity. }
      rewrite G. reflexivity.
    + reflexivity.
    + reflexivity.
    + reflexivity.
  - intros Hin. pose proof (parseNote_nonzero note) as N.
    rewrite Forall_forall in N. apply N. exact Hin.
Qed.

Lemma zero_probability_parses_as_100_witness :
  tagFields " " "Hero_IdleStretch" " " "0" " " "2" = true
  /\ parseLine noTags "<IdleAnim: Hero_IdleStretch, 0, 2, 0>"
     = pushAnim (mkIdleAnim "Hero_IdleStretch" 0 2 100) noTags
  /\ (In (mkIdleAnim "Hero_IdleStretch" 0 2 100)
         (idleAnims (parseNote "<IdleAnim: Hero_IdleStretch, 0, 2, 0>"))
      -> probability (mkIdleAnim "Hero_IdleStretch" 0 2 100) <> 0).
Proof.
  split; [reflexivity|].
  assert (E0 : exactField "0") by (vm_compute; reflexivity).
  assert (E2 : exactField "2") by (vm_compute; reflexivity).
  exact (zero_probability_parses_as_100 noTags " " "Hero_IdleStretch" " " "0" " " "2"
           " " "<IdleAnim: Hero_IdleStretch, 0, 2, 0>"
           (mkIdleAnim "Hero_IdleStretch" 0 2 100) eq_refl E0 E2 eq_refl).
Defined.

(** * Further properties of the state machine *)

Section NoAnimations.

Variable p : Params.

Lemma startIdleAnimation_empty (u : num) (c : Character) :
  idleAnimations c = [] -> startIdleAnimation u c = c.
Proof. intros H. unfold startIdleAnimation. rewrite H. reflexivity. Qed.

Lemma updateIdle_no_animations (t : Tick) (c : Character) :
  idleAnimations c = [] -> isIdling c = false ->
  idleAnimations (updateIdle p t c) = []
  /\ isIdling (updateIdle p t c) = false
  /\ characterName (updateIdle p t c) = characterName c
  /\ pattern (updateIdle p t c) = pattern c
  /\ direction (updateIdle p t c) = direction c.
Proof.
  intros Ha Hi. unfold updateIdle.
  destruct (moving t || (0 <? waitCount t)); [repeat split; assumption|].
  rewrite Hi. cbn [negb].
  destruct (ge _ _); [|repeat split; assumption].
  destruct (gt _ _ || lt _ _); [|repeat split; assumption].
  rewrite startIdleAnimation_empty by exact Ha.
  repeat split; assumption.
Qed.

End NoAnimations.

(** X1. A character without idle animations that is not idling never starts
    to idle: after any number of frames, moving or not and whatever
    [Math.random()] returns, [_isIdling] is false and the plugin has changed
    neither the sheet name nor the pattern nor the direction. *)
Theorem no_animations_never_idle (p : Params) (ts : list Tick) (c : Character) :
  idleAnimations c = [] -> isIdling c = false ->
  isIdling (run p ts c) = false
  /\ idleAnimations (run p ts c) = []
  /\ characterName (run p ts c) = characterName c
  /\ pattern (run p ts c) = pattern c
  /\ direction (run p ts c) = direction c.
Proof.
  revert c. induction ts as [|t ts IH]; intros c Ha Hi.
  - repeat split; assumption.
  - destruct (updateIdle_no_animations p t c Ha Hi) as (Ha' & Hi' & Hn & Hp & Hd).
    change (run p (t :: ts) c) with (run p ts (updateIdle p t c)).
    destruct (IH (updateIdle p t c) Ha' Hi') as (H1 & H2 & H3 & H4 & H5).
    repeat split; congruence.
Qed.

Lemma no_animations_never_idle_witness :
  idleAnimations (initMembers zeroProbParams "Hero" 1 2) = []
  /\ isIdling (run zeroProbParams (repeat stillTick 700 ++ [walkTick; stillTick])
                   (initMembers zeroProbParams "Hero" 1 2)) = false
  /\ characterName (run zeroProbParams (repeat stillTick 700 ++ [walkTick; stillTick])
                        (initMembers zeroProbParams "Hero" 1 2)) = "Hero".
Proof.
  split; [reflexivity|].
  destruct (no_animations_never_idle zeroProbParams
              (repeat stillTick 700 ++ [walkTick; stillTick])
              (initMembers zeroProbParams "Hero" 1 2) eq_refl eq_refl)
    as (H1 & _ & H3 & _).
  split; [exact H1 | exact H3].
Defined.

(** ** Playback with the engine in between *)

Section EnginePlayback.

Variable p : Params.

Lemma runFrames_app (fs1 fs2 : list ((Character -> Character) * Tick))
      (c : Character) :
  runFrames p (fs1 ++ fs2) c = runFrames p fs2 (runFrames p fs1 c).
Proof.
  revert c. induction fs1 as [|[e t] fs1 IH]; intros c; [reflexivity|].
  change (runFrames p (((e, t) :: fs1) ++ fs2) c)
    with (runFrames p (fs1 ++ fs2) (update p e t c)).
  apply IH.
Qed.

Lemma runFrames_one (e : Character -> Character) (t : Tick) (c : Character) :
  runFrames p [(e, t)] c = updateIdle p t (e c).
Proof. reflexivity. Qed.

Lemma engine_keeps_Locked (c0 : Character) (chosen : IdleAnim) (k : Z)
      (c c' : Character) :
  sameIdleFields c c' -> Locked c0 chosen k c -> Locked c0 chosen k c'.
Proof.
  intros (_ & E2 & _ & _ & _ & E6 & E7 & E8 & E9 & E10 & E11)
         ((Hi & Hc & Hn & Hp & Hk & Hl) & Hf).
  repeat split; congruence.
Qed.

Lemma startIdleAnimation_Locked (u : num) (c : Character) :
  idleAnimations c <> [] ->
  exists chosen : IdleAnim,
    In chosen (idleAnimations c)
    /\ currentIdleAnim (startIdleAnimation u c) = Some chosen
    /\ characterName (startIdleAnimation u c) = name chosen
    /\ pattern (startIdleAnimation u c) = startPattern chosen
    /\ Locked c chosen 0 (startIdleAnimation u c).
Proof.
  intros Hne.
  destruct (startIdleAnimation_playing u c Hne) as (chosen & Hin & Hpl).
  exists chosen. split; [exact Hin|].
  pose proof Hpl as (_ & Hc & _).
  split; [exact Hc|].
  unfold startIdleAnimation in *.
  destruct (idleAnimations c) as [|first rest]; [congruence|].
  cbn [currentIdleAnim] in Hc. inversion Hc as [Hch].
  repeat split; reflexivity.
Qed.

(** What a frame in the middle of the animation shows. *)
Lemma Locked_advance (c0 : Character) (chosen : IdleAnim) (k : Z)
      (t : Tick) (c : Character) :
  stationary t -> Locked c0 chosen k c -> 0 <= k ->
  k + 1 < (endPattern chosen - startPattern chosen + 1) * 15 ->
  Locked c0 chosen (k + 1) (updateIdle p t c)
  /\ pattern (updateIdle p t c) = startPattern chosen + (k + 1) / 15
  /\ direction (updateIdle p t c) = direction c0
  /\ characterName (updateIdle p t c) = characterName c.
Proof.
  intros Hs (Hpl & Hf) Hk0 Hlt.
  pose proof (playing_advance p c0 chosen k t c Hs Hpl Hlt) as Hnext.
  destruct Hpl as (Hi & Hc & Hn & Hp & Hk & Hl).
  assert (Hq : 0 <= (k + 1) / 15 < endPattern chosen - startPattern chosen + 1).
  { split.
    - apply Z.div_pos; lia.
    - apply Z.div_lt_upper_bound; lia. }
  unfold updateIdle in *. rewrite (stationary_guard t Hs), Hi, Hc in *.
  cbn [negb] in *. unfold updateIdleAnimationFrame in *.
  rewrite Hl, Hk in *.
  destruct (Z.leb_spec ((endPattern chosen - startPattern chosen + 1) * 15) (k + 1));
    [lia|].
  cbn [pattern direction characterName idleFacingDirection].
  rewrite (Z.rem_small _ _ Hq).
  repeat split; auto.
Qed.

Lemma runFrames_Locked (c0 : Character) (chosen : IdleAnim)
      (fs : list ((Character -> Character) * Tick)) :
  forall (k : Z) (c : Character),
    Forall quietFrame fs -> Locked c0 chosen k c -> 0 <= k ->
    k + Z.of_nat (List.length fs) < (endPattern chosen - startPattern chosen + 1) * 15 ->
    Locked c0 chosen (k + Z.of_nat (List.length fs)) (runFrames p fs c).
Proof.
  induction fs as [|[e t] fs IH]; intros k c Hq Hl Hk Hlt.
  - cbn [List.length runFrames]. rewrite Z.add_0_r. exact Hl.
  - inversion Hq as [|? ? [He Ht] Hfs]; subst.
    change (runFrames p ((e, t) :: fs) c) with (runFrames p fs (updateIdle p t (e c))).
    replace (k + Z.of_nat (List.length ((e, t) :: fs)))
      with ((k + 1) + Z.of_nat (List.length fs)) in *
      by (cbn [List.length]; lia).
    apply IH; [exact Hfs | | lia | exact Hlt].
    apply Locked_advance; [exact Ht | | exact Hk | lia].
    apply (engine_keeps_Locked c0 chosen k c (e c) (He c) Hl).
Qed.

End EnginePlayback.


Lemma turnUp_keepsIdleFields : keepsIdleFields turnUp.
Proof. intros c. repeat split. Qed.


(** X3. The frame that completes an animation puts back the sheet name and
    the pattern saved when the animation started, also when the engine's own
    update showed another sheet, pattern or direction on the frames in
    between: what the engine displayed meanwhile is overwritten. *)
Theorem completion_restores_snapshot
  (p : Params) (u : num) (c : Character)
  (fs : list ((Character -> Character) * Tick))
  (f : (Character -> Character) * Tick) :
  idleAnimations c <> [] ->
  Forall quietFrame fs -> quietFrame f ->
  Z.of_nat (List.length fs) + 1 = Z.max 1 (idleAnimLength (startIdleAnimation u c)) ->
  characterName (runFrames p (fs ++ [f]) (startIdleAnimation u c)) = characterName c
  /\ pattern (runFrames p (fs ++ [f]) (startIdleAnimation u c)) = pattern c
  /\ isIdling (runFrames p (fs ++ [f]) (startIdleAnimation u c)) = false
  /\ currentIdleAnim (runFrames p (fs ++ [f]) (startIdleAnimation u c)) = None
  /\ idleTimer (runFrames p (fs ++ [f]) (startIdleAnimation u c)) = zero.
Proof.
  intros Hne Hq [He Ht] Hlen. destruct f as [e t]. cbn [fst snd] in He, Ht.
  destruct (startIdleAnimation_Locked u c Hne) as (chosen & _ & _ & _ & _ & Hl).
  assert (HL : idleAnimLength (startIdleAnimation u c)
               = (endPattern chosen - startPattern chosen + 1) * 15)
    by apply Hl.
  rewrite HL in Hlen.
  rewrite runFrames_app, runFrames_one.
  assert (Hmid : Locked c chosen (Z.of_nat (List.length fs))
                        (runFrames p fs (startIdleAnimation u c))).
  { destruct fs as [|f0 fs0]; [exact Hl|].
    pose proof (runFrames_Locked p c chosen (f0 :: fs0) 0 (startIdleAnimation u c)
                  Hq Hl (Z.le_refl 0)) as R.
    rewrite Z.add_0_l in R. apply R. cbn [List.length] in *. lia. }
  pose proof (engine_keeps_Locked c chosen _ _ _ (He _) Hmid) as [Hpl _].
  destruct (playing_complete p c chosen _ t _ Ht Hpl) as (H1 & H2 & H3 & H4 & H5 & _);
    [lia|].
  repeat split; assumption.
Qed.

Lemma completion_restores_snapshot_witness :
  characterName (runFrames defaultParams
                   (repeat (display "Other" 0 4, stillTick) 44
                      ++ [(display "Other" 0 4, stillTick)])
                   (startIdleAnimation half hero)) = "Hero"
  /\ pattern (runFrames defaultParams
                (repeat (display "Other" 0 4, stillTick) 44
                   ++ [(display "Other" 0 4, stillTick)])
                (startIdleAnimation half hero)) = 1.
Proof.
  assert (Q : quietFrame (display "Other" 0 4, stillTick)).
  { split; [intros c; repeat split | exact stillTick_stationary]. }
  destruct (completion_restores_snapshot defaultParams half hero
              (repeat (display "Other" 0 4, stillTick) 44)
              (display "Other" 0 4, stillTick))
    as (H1 & H2 & _).
  - discriminate.
  - apply Forall_forall. intros f Hf. apply repeat_spec in Hf. subst f. exact Q.
  - exact Q.
  - vm_compute. reflexivity.
  - split; [exact H1 | exact H2].
Defined.

(** ** The forced trigger *)

Section ForcedTrigger.

Variable p : Params.

Lemma SFcompare_le_lt_trans (a b c : num) :
  SFleb a b = true -> SFltb b c = true -> SFltb a c = true.
Proof.
  unfold SFltb, SFleb.
  destruct a as [sa| sa| |sa ma ea], b as [sb| sb| |sb mb eb],
           c as [sc| sc| |sc mc ec]; simpl; try discriminate;
    try (destruct sa; simpl; try discriminate);
    try (destruct sb; simpl; try discriminate);
    try (destruct sc; simpl; try discriminate); auto.
  all: rewrite ?Pos.compare_cont_spec; simpl.
  all: destruct (Z.compare_spec ea eb); destruct (Z.compare_spec eb ec);
       destruct (Z.compare_spec ea ec); subst; simpl; try discriminate; auto;
       try lia.
  all: destruct (Pos.compare_spec ma mb); destruct (Pos.compare_spec mb mc);
       destruct (Pos.compare_spec ma mc); subst; simpl; try discriminate;
       auto; try lia.
Qed.

Lemma SFltb_SFleb (a b : num) : SFltb a b = true -> SFleb a b = true.
Proof.
  unfold SFltb, SFleb. destruct (SFcompare a b) as [[| |]|]; congruence.
Qed.

(** A stationary frame on which neither the maximum is exceeded nor the roll
    is low enough only adds [1/60] to the timer. *)
Lemma updateIdle_no_trigger (t : Tick) (c : Character) :
  stationary t -> isIdling c = false ->
  gt (add (idleTimer c) frameTime) (idleMaxTime c) = false ->
  lt (roll t) (DEFAULT_PROB p) = false ->
  updateIdle p t c = withTimer (add (idleTimer c) frameTime) c.
Proof.
  intros Hs Hi Hm Hr. unfold updateIdle.
  rewrite (stationary_guard t Hs), Hi. cbn [negb idleTimer idleMinTime idleMaxTime withTimer].
  fold (roll t). rewrite Hm, Hr.
  destruct (ge _ _); reflexivity.
Qed.

Lemma run_no_trigger (ts : list Tick) (c : Character) :
  Forall stationary ts -> isIdling c = false ->
  Forall (fun t => lt (roll t) (DEFAULT_PROB p) = false) ts ->
  (forall j, (1 <= j <= List.length ts)%nat ->
             gt (timerAfter j (idleTimer c)) (idleMaxTime c) = false) ->
  run p ts c = withTimer (timerAfter (List.length ts) (idleTimer c)) c.
Proof.
  revert c. induction ts as [|t ts IH]; intros c Hs Hi Hr Hlow.
  - symmetry. apply withTimer_same.
  - inversion Hs as [|? ? Ht Hts]; subst. inversion Hr as [|? ? Hrt Hrts]; subst.
    change (run p (t :: ts) c) with (run p ts (updateIdle p t c)).
    rewrite updateIdle_no_trigger; auto.
    + rewrite IH; auto.
      * cbn [idleTimer withTimer List.length]. rewrite timerAfter_shift. reflexivity.
      * intros j Hj. cbn [idleTimer idleMaxTime withTimer].
        rewrite timerAfter_shift. apply Hlow. cbn [List.length]. lia.
    + apply (Hlow 1%nat). cbn [List.length]. lia.
Qed.

End ForcedTrigger.

(** X4. With [idleMinTime <= idleMaxTime] and rolls that never fall below the
    configured probability (as with probability 0), a stationary character
    with at least one animation starts idling exactly on the first frame on
    which the accumulated timer exceeds [idleMaxTime]: the frames before only
    add [1/60] each to the timer and change nothing else, and starting the
    animation leaves the timer at its accumulated value. *)
Theorem forced_trigger_after_max
  (p : Params) (ts : list Tick) (t : Tick) (c : Character) :
  idleAnimations c <> [] -> isIdling c = false ->
  le (idleMinTime c) (idleMaxTime c) = true ->
  Forall stationary ts -> stationary t ->
  Forall (fun t0 => lt (roll t0) (DEFAULT_PROB p) = false) ts ->
  (forall j, (1 <= j <= List.length ts)%nat ->
             gt (timerAfter j (idleTimer c)) (idleMaxTime c) = false) ->
  gt (timerAfter (S (List.length ts)) (idleTimer c)) (idleMaxTime c) = true ->
  run p ts c = withTimer (timerAfter (List.length ts) (idleTimer c)) c
  /\ isIdling (run p (ts ++ [t]) c) = true
  /\ idleTimer (run p (ts ++ [t]) c) = timerAfter (S (List.length ts)) (idleTimer c).
Proof.
  intros Hne Hi Hmm Hs Ht Hr Hlow Hexc.
  pose proof (run_no_trigger p ts c Hs Hi Hr Hlow) as Hrun.
  split; [exact Hrun|].
  rewrite run_app, Hrun, run_one.
  assert (Hopen : ge (timerAfter (S (List.length ts)) (idleTimer c)) (idleMinTime c) = true).
  { unfold ge. apply SFltb_SFleb.
    apply (SFcompare_le_lt_trans _ (idleMaxTime c)); assumption. }
  rewrite updateIdle_gate_open; [| exact Ht | exact Hi | exact Hopen].
  cbv zeta. cbn [idleTimer idleMaxTime withTimer].
  change (add (timerAfter (List.length ts) (idleTimer c)) frameTime)
    with (timerAfter (S (List.length ts)) (idleTimer c)).
  rewrite Hexc. cbn [orb].
  split.
  - apply startIdleAnimation_isIdling. exact Hne.
  - unfold startIdleAnimation. cbn [idleAnimations withTimer].
    destruct (idleAnimations c); [congruence | reflexivity].
Qed.

Lemma forced_trigger_after_max_witness :
  isIdling (run zeroProbParams (repeat stillTick 2) shortHero) = false
  /\ isIdling (run zeroProbParams (repeat stillTick 2 ++ [stillTick]) shortHero) = true.
Proof.
  destruct (forced_trigger_after_max zeroProbParams (repeat stillTick 2) stillTick
              shortHero) as (H1 & H2 & _).
  - discriminate.
  - reflexivity.
  - vm_compute. reflexivity.
  - apply Forall_stationary_repeat. exact stillTick_stationary.
  - exact stillTick_stationary.
  - repeat constructor.
  - intros j Hj. cbn [List.length repeat] in Hj.
    assert (Hc : j = 1%nat \/ j = 2%nat) by lia.
    destruct Hc; subst j; vm_compute; reflexivity.
  - vm_compute. reflexivity.
  - split; [rewrite H1; reflexivity | exact H2].
Defined.

(** X5. While the accumulated timer stays below [idleMinTime], stationary
    frames of a character that is not idling do nothing but add [1/60] to
    the timer, whatever [Math.random()] returns and whatever the configured
    probability and [idleMaxTime] are: no animation starts and the display is
    untouched. *)
Theorem below_min_only_accumulates (p : Params) (ts : list Tick) (c : Character) :
  Forall stationary ts -> isIdling c = false ->
  (forall j, (1 <= j <= List.length ts)%nat ->
             ge (timerAfter j (idleTimer c)) (idleMinTime c) = false) ->
  run p ts c = withTimer (timerAfter (List.length ts) (idleTimer c)) c
  /\ isIdling (run p ts c) = false
  /\ characterName (run p ts c) = characterName c
  /\ pattern (run p ts c) = pattern c
  /\ direction (run p ts c) = direction c.
Proof.
  intros Hs Hi Hlow.
  pose proof (run_waiting p ts c Hs Hi Hlow) as R.
  rewrite R. repeat split. exact Hi.
Qed.

Lemma below_min_only_accumulates_witness :
  isIdling (run scenarioParams (repeat stillTick 59) (scenarioChar "Hero" 1 2)) = false
  /\ characterName (run scenarioParams (repeat stillTick 59) (scenarioChar "Hero" 1 2))
     = "Hero".
Proof.
  destruct (below_min_only_accumulates scenarioParams (repeat stillTick 59)
              (scenarioChar "Hero" 1 2)) as (_ & H1 & H2 & _).
  - apply Forall_stationary_repeat. exact stillTick_stationary.
  - reflexivity.
  - intros j Hj. rewrite repeat_length in Hj.
    apply scenario_gate_closed. exact Hj.
  - split; [exact H1 | exact H2].
Defined.

(** ** Interrupted animations *)

Section Interrupt.

Variable p : Params.

Lemma startIdleAnimation_anims (u : num) (c : Character) :
  idleAnimations (startIdleAnimation u c) = idleAnimations c.
Proof.
  unfold startIdleAnimation.
  destruct (idleAnimations c) eqn:E; cbn [idleAnimations]; congruence.
Qed.

Lemma updateIdle_interrupt (t : Tick) (c : Character) :
  moving t = true \/ 0 < waitCount t ->
  updateIdle p t c
  = {| characterName := characterName c;
       pattern := pattern c;
       direction := direction c;
       idleAnimations := idleAnimations c;
       isIdling := false;
       idleTimer := zero;
       idleMinTime := idleMinTime c;
       idleMaxTime := idleMaxTime c;
       currentIdleAnim := None;
       originalPattern := originalPattern c;
       originalCharacterName := originalCharacterName c;
       idleFacingDirection := idleFacingDirection c;
       idleFrameCount := idleFrameCount c;
       idleAnimLength := idleAnimLength c |}.
Proof.
  intros H.
  assert (G : moving t || (0 <? waitCount t) = true).
  { destruct H as [H | H].
    - rewrite H. reflexivity.
    - apply orb_true_iff. right. apply Z.ltb_lt. exact H. }
  unfold updateIdle. rewrite G. reflexivity.
Qed.


End Interrupt.

Section InterruptedDisplay.

Variable p : Params.


End InterruptedDisplay.



(** X7. The command [triggerIdle] starts an animation for a character that
    is neither moving nor idling whatever its timer, its thresholds and the
    configured probability are, and it does not look at [_waitCount]: when
    the character is waiting, the animation it started is dropped by the
    next [updateIdle], which leaves the animation's sheet and start pattern
    on display with [_isIdling] false. *)
Theorem triggerIdle_ignores_wait
  (p : Params) (u : num) (t : Tick) (c : Character) :
  idleAnimations c <> [] -> isIdling c = false ->
  moving t = false -> 0 < waitCount t ->
  exists (c' : Character) (chosen : IdleAnim),
    triggerIdle u (moving t) (Some c) = Some c'
    /\ isIdling c' = true
    /\ currentIdleAnim c' = Some chosen
    /\ In chosen (idleAnimations c)
    /\ isIdling (updateIdle p t c') = false
    /\ currentIdleAnim (updateIdle p t c') = None
    /\ characterName (updateIdle p t c') = name chosen
    /\ pattern (updateIdle p t c') = startPattern chosen
    /\ originalCharacterName (updateIdle p t c') = characterName c.
Proof.
  intros Hne Hi Hm Hw.
  destruct (startIdleAnimation_Locked u c Hne)
    as (chosen & Hin & Hc & Hn & Hp & ((Hidle & _ & Ho & _) & _)).
  exists (startIdleAnimation u c), chosen.
  split; [unfold triggerIdle; rewrite Hm, Hi; reflexivity|].
  split; [exact Hidle|]. split; [exact Hc|]. split; [exact Hin|].
  rewrite updateIdle_interrupt by (right; exact Hw).
  cbn [isIdling currentIdleAnim characterName pattern originalCharacterName].
  repeat split; assumption.
Qed.

Lemma triggerIdle_ignores_wait_witness :
  exists (c' : Character) (chosen : IdleAnim),
    triggerIdle half false (Some hero) = Some c'
    /\ isIdling c' = true
    /\ isIdling (updateIdle zeroProbParams waitTick c') = false
    /\ characterName (updateIdle zeroProbParams waitTick c') = name chosen.
Proof.
  destruct (triggerIdle_ignores_wait zeroProbParams half waitTick hero)
    as (c' & chosen & H1 & H2 & _ & _ & H5 & _ & H7 & _).
  - discriminate.
  - reflexivity.
  - reflexivity.
  - reflexivity.
  - exists c', chosen. repeat split; assumption.
Defined.

(** ** Reachable states are consistent *)

Section Invariant.

Variable p : Params.

Lemma Consistent_sameIdleFields (c c' : Character) :
  sameIdleFields c c' -> Consistent c -> Consistent c'.
Proof.
  intros (_ & E2 & _ & _ & _ & E6 & _ & _ & _ & E10 & E11) H.
  unfold Consistent in *. rewrite E2, E6, E10, E11. exact H.
Qed.

Lemma Consistent_not_idling (c : Character) :
  Consistent c -> isIdling c = false -> currentIdleAnim c = None.
Proof.
  unfold Consistent. intros H Hi.
  destruct (currentIdleAnim c); [|reflexivity].
  destruct H as (H & _). congruence.
Qed.

Lemma Consistent_idling (c : Character) :
  Consistent c -> isIdling c = true ->
  exists a : IdleAnim,
    currentIdleAnim c = Some a
    /\ idleAnimLength c = (endPattern a - startPattern a + 1) * 15
    /\ (idleFrameCount c = 0 \/ 0 < idleFrameCount c < idleAnimLength c).
Proof.
  unfold Consistent. intros H Hi.
  destruct (currentIdleAnim c) as [a|]; [|congruence].
  exists a. destruct H as (_ & H). split; [reflexivity | exact H].
Qed.

Lemma Consistent_withTimer (x : num) (c : Character) :
  Consistent c -> Consistent (withTimer x c).
Proof. intros H. exact H. Qed.

Lemma Consistent_startIdleAnimation (u : num) (c : Character) :
  Consistent c -> Consistent (startIdleAnimation u c).
Proof.
  intros H. unfold startIdleAnimation.
  destruct (idleAnimations c) as [|first rest]; [exact H|].
  unfold Consistent. cbn [currentIdleAnim isIdling idleAnimLength idleFrameCount].
  split; [reflexivity|]. split; [reflexivity|]. left. reflexivity.
Qed.

Lemma Consistent_updateIdle (t : Tick) (c : Character) :
  Consistent c -> Consistent (updateIdle p t c).
Proof.
  intros H. unfold updateIdle.
  destruct (moving t || (0 <? waitCount t)); [reflexivity|].
  destruct (isIdling c) eqn:Hi; cbn [negb].
  - destruct (Consistent_idling c H Hi) as (a & Hc & Hl & Hk).
    rewrite Hc. unfold updateIdleAnimationFrame.
    destruct (Z.leb_spec (idleAnimLength c) (idleFrameCount c + 1)).
    + reflexivity.
    + unfold Consistent.
      cbn [currentIdleAnim isIdling idleAnimLength idleFrameCount].
      rewrite Hc. split; [exact Hi|]. split; [exact Hl|]. right. lia.
  - destruct (ge _ _); [|apply Consistent_withTimer; exact H].
    destruct (gt _ _ || lt _ _); [|apply Consistent_withTimer; exact H].
    apply Consistent_startIdleAnimation. apply Consistent_withTimer. exact H.
Qed.

Lemma Consistent_triggerIdle (u : num) (m : bool) (c c' : Character) :
  Consistent c -> triggerIdle u m (Some c) = Some c' -> Consistent c'.
Proof.
  intros H E. unfold triggerIdle in E.
  destruct (negb m && negb (isIdling c)); inversion E; subst.
  - apply Consistent_startIdleAnimation. exact H.
  - exact H.
Qed.

Lemma Consistent_loadIdleNotetags (note : string) (c : Character) :
  Consistent c -> Consistent (loadIdleNotetags note c).
Proof. intros H. destruct note; exact H. Qed.

Lemma Reachable_Consistent (c : Character) : Reachable p c -> Consistent c.
Proof.
  induction 1 as [sheet pat dir | c c' _ IH Hs | t c _ IH | u m c c' _ IH E
                  | anims mn mx c _ IH | note c _ IH].
  - reflexivity.
  - exact (Consistent_sameIdleFields c c' Hs IH).
  - apply Consistent_updateIdle. exact IH.
  - exact (Consistent_triggerIdle u m c c' IH E).
  - exact IH.
  - apply Consistent_loadIdleNotetags. exact IH.
Qed.

Lemma list_eq_dec_nil (l : list IdleAnim) : l = [] \/ l <> [].
Proof. destruct l; [left; reflexivity | right; discriminate]. Qed.

Lemma ExactState_startIdleAnimation (u : num) (c : Character) :
  ExactState c -> ExactState (startIdleAnimation u c).
Proof.
  intros H.
  destruct (list_eq_dec_nil (idleAnimations c)) as [E | Hne].
  - rewrite startIdleAnimation_empty by exact E. exact H.
  - destruct H as [Hl Hc].
    destruct (startIdleAnimation_playing u c Hne) as (chosen & Hin & Hpl).
    split.
    + rewrite startIdleAnimation_anims. exact Hl.
    + intros a Ha. destruct Hpl as (_ & Hcur & _).
      rewrite Hcur in Ha. injection Ha as <-.
      rewrite Forall_forall in Hl. apply Hl. exact Hin.
Qed.

Lemma ExactState_updateIdle (t : Tick) (c : Character) :
  ExactState c -> ExactState (updateIdle p t c).
Proof.
  intros H. pose proof H as [Hl Hc]. unfold updateIdle.
  destruct (moving t || (0 <? waitCount t)).
  { split; [exact Hl | intros a Ha; discriminate Ha]. }
  destruct (negb (isIdling c)).
  - destruct (ge _ _); [|exact H].
    destruct (gt _ _ || lt _ _); [|exact H].
    apply ExactState_startIdleAnimation. exact H.
  - destruct (currentIdleAnim c) as [cur|] eqn:E; [|exact H].
    unfold updateIdleAnimationFrame.
    destruct (idleAnimLength c <=? idleFrameCount c + 1).
    + split; [exact Hl | intros a Ha; discriminate Ha].
    + split; [exact Hl|]. cbn [currentIdleAnim]. rewrite E. exact Hc.
Qed.

Lemma Reachable_ExactState (c : Character) : Reachable p c -> ExactState c.
Proof.
  induction 1 as [sheet pat dir | c c' _ IH Hs | t c _ IH | u m c c' _ IH E
                  | anims mn mx c _ IH Hex | note c _ IH Hex].
  - split; [constructor | intros a Ha; discriminate Ha].
  - destruct Hs as (E1 & _ & _ & _ & _ & E6 & _). destruct IH as [Hl Hc].
    split; [rewrite E1; exact Hl | rewrite E6; exact Hc].
  - apply ExactState_updateIdle. exact IH.
  - unfold triggerIdle in E.
    destruct (negb m && negb (isIdling c)); injection E as <-.
    + apply ExactState_startIdleAnimation. exact IH.
    + exact IH.
  - destruct IH as [_ Hc]. split; [exact Hex | exact Hc].
  - destruct note as [|x y]; [exact IH|].
    destruct IH as [_ Hc]. split; [exact Hex | exact Hc].
Qed.

End Invariant.

(** X8. In every state a character can reach through [initMembers], the
    engine's changes of its own fields, [updateIdle], the command
    [triggerIdle], and [setCharacterIdleData] and [loadIdleNotetags] with
    definitions whose patterns are integers of magnitude below 2^48 (so that
    no number the code computes from them leaves the integers below 2^53),
    [_isIdling] is true exactly when [_currentIdleAnim] is set; then
    [_idleAnimLength] is 15 times the number of patterns of that animation,
    [_idleFrameCount] is 0 or lies strictly between 0 and the length, and
    the current animation is in that range, so that the length and the
    counter are integers of magnitude below 2^53.  So the test of
    [_currentIdleAnim] in [updateIdle] never skips a frame of an idling
    character. *)
Theorem reachable_states_consistent (p : Params) (c : Character) :
  Reachable p c ->
  (isIdling c = true <-> exists a : IdleAnim, currentIdleAnim c = Some a)
  /\ (forall a : IdleAnim, currentIdleAnim c = Some a ->
        idleAnimLength c = (endPattern a - startPattern a + 1) * 15
        /\ (idleFrameCount c = 0 \/ 0 < idleFrameCount c < idleAnimLength c)
        /\ exactAnim a
        /\ - 2 ^ 53 < idleAnimLength c < 2 ^ 53
        /\ 0 <= idleFrameCount c < 2 ^ 53).
Proof.
  intros R. pose proof (Reachable_Consistent p c R) as H.
  pose proof (Reachable_ExactState p c R) as [_ Hex].
  split; [split|].
  - intros Hi. destruct (Consistent_idling c H Hi) as (a & Hc & _).
    exists a. exact Hc.
  - intros (a & Hc). unfold Consistent in H. rewrite Hc in H. apply H.
  - intros a Hc. unfold Consistent in H. rewrite Hc in H.
    destruct H as (_ & HL & Hk). specialize (Hex a Hc).
    split; [exact HL|]. split; [exact Hk|]. split; [exact Hex|].
    unfold exactAnim in Hex. lia.
Qed.

Lemma reachable_states_consistent_witness :
  isIdling (run defaultParams (repeat stillTick 610)
                (loadIdleNotetags tagsNote (initMembers defaultParams "Hero" 1 2)))
  = true
  <-> exists a : IdleAnim,
      currentIdleAnim
        (run defaultParams (repeat stillTick 610)
             (loadIdleNotetags tagsNote (initMembers defaultParams "Hero" 1 2)))
      = Some a.
Proof.
  apply (reachable_states_consistent defaultParams).
  generalize (repeat stillTick 610).
  assert (G : forall ts c, Reachable defaultParams c ->
                           Reachable defaultParams (run defaultParams ts c)).
  { induction ts as [|t ts IH]; intros c R; [exact R|].
    apply IH. apply reach_updateIdle. exact R. }
  intros ts. apply G. apply reach_loadIdleNotetags; [apply reach_init|].
  assert (E : idleAnims (parseNote tagsNote) = [mkIdleAnim "Hero_IdleBlink" 0 2 70])
    by (vm_compute; reflexivity).
  rewrite E. constructor; [|constructor].
  unfold exactAnim. cbn [startPattern endPattern]. lia.
Defined.

Lemma Forall_quiet_firstn (n : nat) (fs : list ((Character -> Character) * Tick)) :
  Forall quietFrame fs -> Forall quietFrame (firstn n fs).
Proof.
  revert n. induction fs as [|f fs IH]; intros [|n] H; cbn [firstn]; auto.
  inversion H; subst. constructor; auto.
Qed.

(** X9. An idling character in a reachable state (a state reached with
    definitions whose patterns are integers of magnitude below 2^48, see
    [Reachable]) finishes its animation:
    after as many quiet frames as the animation has left (the length minus
    the frame counter, at least one) it is no longer idling, shows the saved
    sheet and pattern and has its timer at zero, and on every earlier frame
    it is still idling. *)
Theorem reachable_idle_ends
  (p : Params) (c : Character)
  (fs : list ((Character -> Character) * Tick)) :
  Reachable p c -> isIdling c = true ->
  Forall quietFrame fs ->
  List.length fs = framesLeft c ->
  (forall n : nat, (n < List.length fs)%nat ->
     isIdling (runFrames p (firstn n fs) c) = true)
  /\ isIdling (runFrames p fs c) = false
  /\ currentIdleAnim (runFrames p fs c) = None
  /\ characterName (runFrames p fs c) = originalCharacterName c
  /\ pattern (runFrames p fs c) = originalPattern c
  /\ idleTimer (runFrames p fs c) = zero.
Proof.
  intros R Hi Hq Hlen.
  destruct (Consistent_idling c (Reachable_Consistent p c R) Hi)
    as (a & Hc & HL & Hk).
  assert (Hl : Locked (saved c) a (idleFrameCount c) c).
  { repeat split; auto. }
  assert (Hk0 : 0 <= idleFrameCount c) by lia.
  unfold framesLeft in Hlen.
  assert (Hpre : forall n : nat, (n < List.length fs)%nat ->
            Locked (saved c) a (idleFrameCount c + Z.of_nat n)
                   (runFrames p (firstn n fs) c)).
  { intros n Hn.
    destruct n as [|n]; [cbn [firstn runFrames]; rewrite Z.add_0_r; exact Hl|].
    remember (S n) as m eqn:Em.
    assert (Hfl : List.length (firstn m fs) = m) by (rewrite length_firstn; lia).
    pose proof (runFrames_Locked p (saved c) a (firstn m fs) (idleFrameCount c) c)
      as Rn.
    rewrite Hfl in Rn. apply Rn; auto.
    - apply Forall_quiet_firstn. exact Hq.
    - rewrite <- HL. lia. }
  split.
  { intros n Hn. destruct (Hpre n Hn) as ((Hidle & _) & _). exact Hidle. }
  destruct (exists_last (l := fs)) as (fs' & [e t] & Hfs).
  { intros E. rewrite E in Hlen. cbn [List.length] in Hlen. lia. }
  subst fs. rewrite length_app in *. cbn [List.length] in *.
  apply Forall_app in Hq. destruct Hq as [_ Hlast].
  inversion Hlast as [|? ? [He Ht] _]; subst. cbn [fst snd] in He, Ht.
  pose proof (Hpre (List.length fs') ltac:(lia)) as Hmid.
  rewrite firstn_app, firstn_all, Nat.sub_diag in Hmid.
  cbn [firstn] in Hmid. rewrite app_nil_r in Hmid.
  rewrite runFrames_app, runFrames_one.
  pose proof (engine_keeps_Locked (saved c) a _ _ _ (He _) Hmid) as [Hpl _].
  destruct (playing_complete p (saved c) a _ t _ Ht Hpl) as (H1 & H2 & H3 & H4 & H5 & _).
  { rewrite <- HL. lia. }
  repeat split; assumption.
Qed.

Lemma reachable_idle_ends_witness :
  framesLeft (startIdleAnimation half hero) = 45%nat
  /\ isIdling (runFrames defaultParams (repeat (turnUp, stillTick) 45)
                         (startIdleAnimation half hero)) = false
  /\ characterName (runFrames defaultParams (repeat (turnUp, stillTick) 45)
                              (startIdleAnimation half hero)) = "Hero".
Proof.
  split; [reflexivity|].
  destruct (reachable_idle_ends defaultParams (startIdleAnimation half hero)
              (repeat (turnUp, stillTick) 45))
    as (_ & H1 & _ & H3 & _).
  - apply (reach_triggerIdle defaultParams half false hero); [|reflexivity].
    apply reach_setCharacterIdleData; [apply reach_init|].
    constructor; [|constructor].
    unfold exactAnim. cbn [startPattern endPattern animA]. lia.
  - reflexivity.
  - apply Forall_forall. intros f Hf. apply repeat_spec in Hf. subst f.
    split; [exact turnUp_keepsIdleFields | exact stillTick_stationary].
  - reflexivity.
  - split; [exact H1 | exact H3].
Defined.

(** * Further properties of the parser *)

Section PlainText.

Lemma allChars_trimStart (cls : ascii -> bool) (s : string) :
  allChars cls s = true -> allChars cls (trimStart s) = true.
Proof.
  induction s as [|a s IH]; intros H; [reflexivity|].
  cbn [trimStart]. destruct (isSpace a); [|exact H].
  cbn [allChars] in H. apply andb_true_iff in H. apply IH. apply H.
Qed.

Lemma allChars_trimEnd (cls : ascii -> bool) (s : string) :
  allChars cls s = true -> allChars cls (trimEnd s) = true.
Proof.
  induction s as [|a s IH]; intros H; [reflexivity|].
  cbn [allChars] in H. apply andb_true_iff in H. destruct H as [Ha Hs].
  cbn [trimEnd]. specialize (IH Hs).
  destruct (trimEnd s) as [|b r].
  - destruct (isSpace a); [reflexivity|]. cbn [allChars]. rewrite Ha. reflexivity.
  - cbn [allChars] in *. rewrite Ha. exact IH.
Qed.

Lemma allChars_trim (cls : ascii -> bool) (s : string) :
  allChars cls s = true -> allChars cls (trim s) = true.
Proof.
  intros H. unfold trim. apply allChars_trimEnd, allChars_trimStart. exact H.
Qed.

Lemma allChars_split_lines (cls : ascii -> bool) (s : string) :
  allChars cls s = true -> Forall (fun l => allChars cls l = true) (split_lines s).
Proof.
  induction s as [|a s IH]; intros H.
  - repeat constructor.
  - cbn [allChars] in H. apply andb_true_iff in H. destruct H as [Ha Hs].
    specialize (IH Hs). rewrite split_lines_cons.
    destruct (code a =? 10).
    + constructor; [reflexivity | exact IH].
    + destruct (split_lines s) as [|l ls].
      * repeat constructor. cbn [allChars]. rewrite Ha. reflexivity.
      * inversion IH; subst. constructor; [|assumption].
        cbn [allChars]. rewrite Ha. assumption.
Qed.

(** A line without [<] holds no tag. *)
Lemma parseLine_without_lt (acc : Notetags) (line : string) :
  allChars notLt line = true -> parseLine acc line = acc.
Proof.
  intros H. pose proof (allChars_trim notLt line H) as Ht.
  unfold parseLine.
  change reMinTime with (Seq (Chr "<") (lits "IdleAnimMinTime:"
    (Seq (Star isSpace) (Seq (Group 1 (Plus isDigitOrDot)) (Chr ">"))))).
  rewrite (search_without_lt _ _ Ht).
  change reMaxTime with (Seq (Chr "<") (lits "IdleAnimMaxTime:"
    (Seq (Star isSpace) (Seq (Group 1 (Plus isDigitOrDot)) (Chr ">"))))).
  rewrite (search_without_lt _ _ Ht).
  unfold reIdleAnim.
  change (lits "<IdleAnim:" ?r) with (Seq (Chr "<") (lits "IdleAnim:" r)).
  rewrite (search_without_lt _ _ Ht).
  reflexivity.
Qed.

Lemma fold_parseLine_without_lt (lines : list string) (acc : Notetags) :
  Forall (fun l => allChars notLt l = true) lines ->
  fold_left parseLine lines acc = acc.
Proof.
  induction lines as [|l lines IH]; intros H; [reflexivity|].
  inversion H; subst. cbn [fold_left].
  rewrite parseLine_without_lt by assumption. apply IH. assumption.
Qed.

End PlainText.

(** X10. A note in which the character [<] does not occur holds no tag:
    parsing it gives no definition and no time.  Loading such a note, when it
    is not empty, empties the character's list of animations and keeps its
    two times; loading the empty note changes nothing, so the animations
    loaded before stay. *)
Theorem note_without_tags (note : string) (c : Character) :
  allChars notLt note = true ->
  parseNote note = noTags
  /\ (note <> EmptyString ->
      idleAnimations (loadIdleNotetags note c) = []
      /\ idleMinTime (loadIdleNotetags note c) = idleMinTime c
      /\ idleMaxTime (loadIdleNotetags note c) = idleMaxTime c)
  /\ loadIdleNotetags EmptyString c = c.
Proof.
  intros H.
  assert (P : parseNote note = noTags).
  { unfold parseNote. apply fold_parseLine_without_lt.
    apply allChars_split_lines. exact H. }
  split; [exact P|]. split; [|reflexivity].
  intros Hne. destruct note as [|a s]; [congruence|].
  unfold loadIdleNotetags. rewrite P. repeat split.
Qed.

Lemma note_without_tags_witness :
  idleAnimations hero = [animA]
  /\ idleAnimations (loadIdleNotetags "IdleAnim: Foo, 0, 2 and more text" hero) = []
  /\ idleAnimations (loadIdleNotetags EmptyString hero) = [animA].
Proof.
  split; [reflexivity|].
  destruct (note_without_tags "IdleAnim: Foo, 0, 2 and more text" hero eq_refl)
    as (_ & H & H0).
  split.
  - apply H. discriminate.
  - rewrite H0. reflexivity.
Defined.

Section ParsedValues.

Lemma digitsValue_nonneg (s : string) :
  forall acc : Z, 0 <= acc -> 0 <= digitsValue acc s.
Proof.
  induction s as [|a s IH]; intros acc Hacc; cbn [digitsValue]; [exact Hacc|].
  destruct (isDigit a) eqn:E; [|exact Hacc].
  apply IH. unfold isDigit in E. apply andb_true_iff in E.
  destruct E as [E1 _]. apply Z.leb_le in E1. unfold digitVal. lia.
Qed.

Lemma parseInt_nonneg (s : string) (z : Z) : parseInt s = Some z -> 0 <= z.
Proof.
  unfold parseInt. destruct s as [|a s]; [discriminate|].
  destruct (isDigit a); [|discriminate].
  intros H. injection H as <-.
  exact (digitsValue_nonneg (String a s) 0 (Z.le_refl 0)).
Qed.

Lemma orHundred_positive (v : option Z) :
  (forall z, v = Some z -> 0 <= z) -> 1 <= orHundred v.
Proof.
  intros H. destruct v as [z|]; cbn [orHundred]; [|lia].
  specialize (H z eq_refl). destruct (Z.eqb_spec z 0); lia.
Qed.

Lemma parseLine_sound (acc : Notetags) (line : string) :
  Forall parsedRanges (idleAnims acc) -> Forall parsedRanges (idleAnims (parseLine acc line)).
Proof.
  intros H. unfold parseLine.
  destruct (search reMinTime (trim line)); [exact H|].
  destruct (search reMaxTime (trim line)); [exact H|].
  destruct (search reIdleAnim (trim line)) as [caps|]; [|exact H].
  destruct (parseInt (dollar caps 2)) as [start|] eqn:E2; [|exact H].
  destruct (parseInt (dollar caps 3)) as [end_|] eqn:E3; [|exact H].
  cbn [pushAnim idleAnims]. apply Forall_app. split; [exact H|].
  constructor; [|constructor]. unfold parsedRanges.
  cbn [startPattern endPattern probability].
  split; [exact (parseInt_nonneg _ _ E2)|].
  split; [exact (parseInt_nonneg _ _ E3)|].
  apply orHundred_positive. intros z Hz. exact (parseInt_nonneg _ _ Hz).
Qed.

Lemma parseNote_sound (note : string) : Forall parsedRanges (idleAnims (parseNote note)).
Proof.
  unfold parseNote.
  assert (G : forall lines acc, Forall parsedRanges (idleAnims acc) ->
                                Forall parsedRanges (idleAnims (fold_left parseLine lines acc))).
  { induction lines as [|l lines IH]; intros acc H; [exact H|].
    cbn [fold_left]. apply IH. apply parseLine_sound. exact H. }
  apply G. constructor.
Qed.

End ParsedValues.

(** X11. A tag [<IdleAnim: name, start, end, prob>] whose three number
    fields are below 2^53 (where [parseInt] is exact) appends the definition
    with the trimmed name, the decimal values of the two pattern fields and,
    as probability, the decimal value of the fourth field, except that the
    value 0 (as [0] or [00]) is replaced by 100. *)
Theorem explicit_probability_is_kept
  (acc : Notetags) (ws1 name ws2 d1 ws3 d2 ws4 d3 : string) :
  tagFields ws1 name ws2 d1 ws3 d2 = true ->
  exactField d1 -> exactField d2 -> exactField d3 ->
  allChars isSpace ws4 = true ->
  headIn isDigit d3 = true -> allChars isDigit d3 = true ->
  parseLine acc (animTag ws1 name ws2 d1 ws3 d2 ("," ++ ws4 ++ d3 ++ ">"))
  = pushAnim (mkIdleAnim (trim name) (digitsValue 0 d1) (digitsValue 0 d2)
                (if digitsValue 0 d3 =? 0 then 100 else digitsValue 0 d3))
             acc.
Proof.
  intros F _ _ _ Hws Hh Hd.
  replace ("," ++ ws4 ++ d3 ++ ">") with (("," ++ ws4 ++ d3) ++ ">")
    by (rewrite !string_app_assoc; reflexivity).
  rewrite (parseLine_anim_tag ws1 name ws2 d1 ws3 d2 F acc ("," ++ ws4 ++ d3)
             (setCapture 4 d3 (fieldCaptures name d1 d2))).
  - change (dollar (setCapture 4 d3 (fieldCaptures name d1 d2)) 4) with d3.
    rewrite (parseInt_digits d3 Hh). reflexivity.
  - change ("," ++ ws4 ++ d3) with (String "," (ws4 ++ d3)).
    cbn [allChars]. rewrite allChars_app.
    rewrite (allChars_weaken _ _ ws4 isSpace_notLt Hws).
    rewrite (allChars_weaken _ _ d3 isDigit_notLt Hd). reflexivity.
  - reflexivity.
  - unfold reProbability.
    change (rmatch (Opt ?r) ?s ?caps ?k)
      with (match rmatch r s caps k with Some res => Some res | None => k s caps end).
    replace (("," ++ ws4 ++ d3) ++ ">") with (String "," (ws4 ++ d3 ++ ">"))
      by (rewrite !string_app_assoc; reflexivity).
    rewrite seq_chr.
    assert (G : rmatch (Seq (Star isSpace) (Group 4 (Plus isDigit)))
                  (ws4 ++ d3 ++ ">") (fieldCaptures name d1 d2) accept
                = Some (setCapture 4 d3 (fieldCaptures name d1 d2))).
    { apply seq_star; [exact Hws | |].
      - rewrite headIn_app by exact (headIn_nonempty _ _ Hh).
        apply headIn_digit_not_space. exact Hh.
      - apply (group_plus 4 isDigit d3 ">"); [exact Hh | exact Hd | |];
          reflexivity. }
    rewrite G. reflexivity.
  - reflexivity.
  - reflexivity.
  - reflexivity.
Qed.

Lemma explicit_probability_is_kept_witness :
  parseLine noTags "<IdleAnim: Hero_IdleBlink, 0, 2, 70>"
  = pushAnim (mkIdleAnim "Hero_IdleBlink" 0 2 70) noTags
  /\ parseLine noTags "<IdleAnim: Hero_IdleBlink, 0, 2, 00>"
     = pushAnim (mkIdleAnim "Hero_IdleBlink" 0 2 100) noTags.
Proof.
  assert (E0 : exactField "0") by (vm_compute; reflexivity).
  assert (E2 : exactField "2") by (vm_compute; reflexivity).
  assert (E70 : exactField "70") by (vm_compute; reflexivity).
  assert (E00 : exactField "00") by (vm_compute; reflexivity).
  split.
  - exact (explicit_probability_is_kept noTags " " "Hero_IdleBlink" " " "0" " " "2"
             " " "70" eq_refl E0 E2 E70 eq_refl eq_refl eq_refl).
  - exact (explicit_probability_is_kept noTags " " "Hero_IdleBlink" " " "0" " " "2"
             " " "00" eq_refl E0 E2 E00 eq_refl eq_refl eq_refl).
Defined.

(** X12. Whatever the note, every definition the parser produces has
    non-negative start and end patterns and a probability of at least 1, so
    the default [probability || 100] of the weighted selection never changes
    the weight of a parsed definition. *)
Theorem parsed_definitions_in_range (note : string) (c : Character) (d : IdleAnim) :
  note <> EmptyString ->
  In d (idleAnimations (loadIdleNotetags note c)) ->
  0 <= startPattern d /\ 0 <= endPattern d /\ 1 <= probability d
  /\ weight d = probability d.
Proof.
  intros Hne Hin. rewrite loadIdleNotetags_anims in Hin by exact Hne.
  pose proof (parseNote_sound note) as S. rewrite Forall_forall in S.
  destruct (S d Hin) as (H1 & H2 & H3).
  repeat split; try assumption.
  unfold weight. destruct (Z.eqb_spec (probability d) 0); [lia | reflexivity].
Qed.

Lemma parsed_definitions_in_range_witness :
  In (mkIdleAnim "Hero_IdleBlink" 0 2 70)
     (idleAnimations (loadIdleNotetags tagsNote hero))
  /\ weight (mkIdleAnim "Hero_IdleBlink" 0 2 70) = 70.
Proof.
  assert (Hin : In (mkIdleAnim "Hero_IdleBlink" 0 2 70)
                   (idleAnimations (loadIdleNotetags tagsNote hero)))
    by (left; reflexivity).
  split; [exact Hin|].
  destruct (parsed_definitions_in_range tagsNote hero
              (mkIdleAnim "Hero_IdleBlink" 0 2 70)) as (_ & _ & _ & H).
  - discriminate.
  - exact Hin.
  - exact H.
Defined.

(** ** Time tags *)

Section TimeTags.

Variables ws ds : string.

Hypothesis fields : timeFields ws ds = true.

Lemma isDigitOrDot_notLt (a : ascii) : isDigitOrDot a = true -> notLt a = true.
Proof.
  destruct a as [[] [] [] [] [] [] [] []]; vm_compute; congruence.
Qed.

Lemma isDigitOrDot_notSpace (a : ascii) : isDigitOrDot a = true -> isSpace a = false.
Proof.
  destruct a as [[] [] [] [] [] [] [] []]; vm_compute; congruence.
Qed.

Lemma isDigitOrDot_notNewline (a : ascii) :
  isDigitOrDot a = true -> notNewline a = true.
Proof.
  destruct a as [[] [] [] [] [] [] [] []]; vm_compute; congruence.
Qed.

Lemma timeFields_parts :
  allChars isSpace ws = true /\ allChars notNewline ws = true
  /\ headIn isDigitOrDot ds = true /\ allChars isDigitOrDot ds = true.
Proof.
  pose proof fields as F. unfold timeFields in F.
  rewrite !andb_true_iff in F. tauto.
Qed.

Lemma time_body_without_lt : allChars notLt (ws ++ ds ++ ">") = true.
Proof.
  destruct timeFields_parts as (F1 & _ & _ & F4).
  rewrite !allChars_app.
  rewrite (allChars_weaken _ _ ws isSpace_notLt F1).
  rewrite (allChars_weaken _ _ ds isDigitOrDot_notLt F4). reflexivity.
Qed.

Lemma time_body_match (caps : captures) :
  rmatch (Seq (Star isSpace) (Seq (Group 1 (Plus isDigitOrDot)) (Chr ">")))
         (ws ++ ds ++ ">") caps accept
  = Some (setCapture 1 ds caps).
Proof.
  destruct timeFields_parts as (F1 & _ & F3 & F4).
  apply seq_star; [exact F1 | |].
  { rewrite headIn_app by exact (headIn_nonempty _ _ F3).
    destruct ds as [|a r]; [discriminate|]. cbn [headIn] in *.
    apply isDigitOrDot_notSpace. exact F3. }
  apply seq_group_plus; [exact F3 | exact F4 | reflexivity |].
  reflexivity.
Qed.

Lemma search_minTimeTag :
  search reMinTime (minTimeTag ws ds) = Some (setCapture 1 ds noCaptures).
Proof.
  apply search_here. unfold minTimeTag, reMinTime.
  rewrite rmatch_lits. apply time_body_match.
Qed.

Lemma search_maxTimeTag :
  search reMaxTime (maxTimeTag ws ds) = Some (setCapture 1 ds noCaptures).
Proof.
  apply search_here. unfold maxTimeTag, reMaxTime.
  rewrite rmatch_lits. apply time_body_match.
Qed.

Lemma no_MinTime_in_maxTimeTag : search reMinTime (maxTimeTag ws ds) = None.
Proof.
  unfold maxTimeTag. cbn [append].
  do 17 (rewrite search_skip by (vm_compute; reflexivity)).
  apply (search_without_lt _ _ time_body_without_lt).
Qed.

Lemma trim_minTimeTag : trim (minTimeTag ws ds) = minTimeTag ws ds.
Proof.
  unfold minTimeTag.
  pose proof (trim_tag ("IdleAnimMinTime:" ++ ws ++ ds)) as T.
  rewrite !string_app_assoc in T. exact T.
Qed.

Lemma trim_maxTimeTag : trim (maxTimeTag ws ds) = maxTimeTag ws ds.
Proof.
  unfold maxTimeTag.
  pose proof (trim_tag ("IdleAnimMaxTime:" ++ ws ++ ds)) as T.
  rewrite !string_app_assoc in T. exact T.
Qed.

Lemma parseLine_minTimeTag (acc : Notetags) :
  parseLine acc (minTimeTag ws ds)
  = mkNotetags (idleAnims acc) (Some (parseFloat ds)) (maxTime acc).
Proof.
  unfold parseLine. rewrite trim_minTimeTag, search_minTimeTag. reflexivity.
Qed.

Lemma parseLine_maxTimeTag (acc : Notetags) :
  parseLine acc (maxTimeTag ws ds)
  = mkNotetags (idleAnims acc) (minTime acc) (Some (parseFloat ds)).
Proof.
  unfold parseLine.
  rewrite trim_maxTimeTag, no_MinTime_in_maxTimeTag, search_maxTimeTag.
  reflexivity.
Qed.

Lemma timeTags_one_line :
  allChars notNewline (minTimeTag ws ds) = true
  /\ allChars notNewline (maxTimeTag ws ds) = true.
Proof.
  destruct timeFields_parts as (_ & F2 & _ & F4).
  unfold minTimeTag, maxTimeTag. rewrite !allChars_app.
  rewrite F2, (allChars_weaken _ _ ds isDigitOrDot_notNewline F4).
  split; reflexivity.
Qed.

End TimeTags.

(** X13. A line [<IdleAnimMinTime: ds>] sets the minimum time read from a
    note to [parseFloat(ds)] and a line [<IdleAnimMaxTime: ds>] the maximum
    time, whatever the lines before it set: when only text without [<]
    follows, the value of that line is the one the note yields, and the
    definitions and the other time are those of the text before it. *)
Theorem last_time_tag_wins (pre post ws ds : string) (c : Character) :
  timeFields ws ds = true ->
  allChars notLt post = true ->
  parseNote (pre ++ nl ++ minTimeTag ws ds ++ nl ++ post)
  = mkNotetags (idleAnims (parseNote pre)) (Some (parseFloat ds))
               (maxTime (parseNote pre))
  /\ parseNote (pre ++ nl ++ maxTimeTag ws ds ++ nl ++ post)
     = mkNotetags (idleAnims (parseNote pre)) (minTime (parseNote pre))
                  (Some (parseFloat ds))
  /\ idleMinTime (loadIdleNotetags (pre ++ nl ++ minTimeTag ws ds ++ nl ++ post) c)
     = parseFloat ds
  /\ idleMaxTime (loadIdleNotetags (pre ++ nl ++ maxTimeTag ws ds ++ nl ++ post) c)
     = parseFloat ds.
Proof.
  intros F Hpost.
  destruct (timeTags_one_line ws ds F) as [N1 N2].
  pose proof (allChars_split_lines notLt post Hpost) as Hlines.
  assert (P1 : parseNote (pre ++ nl ++ minTimeTag ws ds ++ nl ++ post)
               = mkNotetags (idleAnims (parseNote pre)) (Some (parseFloat ds))
                            (maxTime (parseNote pre))).
  { rewrite (parseNote_line pre _ post N1), (parseLine_minTimeTag ws ds F).
    apply fold_parseLine_without_lt. exact Hlines. }
  assert (P2 : parseNote (pre ++ nl ++ maxTimeTag ws ds ++ nl ++ post)
               = mkNotetags (idleAnims (parseNote pre)) (minTime (parseNote pre))
                            (Some (parseFloat ds))).
  { rewrite (parseNote_line pre _ post N2), (parseLine_maxTimeTag ws ds F).
    apply fold_parseLine_without_lt. exact Hlines. }
  split; [exact P1|]. split; [exact P2|]. split.
  - unfold loadIdleNotetags. rewrite P1. destruct pre; reflexivity.
  - unfold loadIdleNotetags. rewrite P2. destruct pre; reflexivity.
Qed.

Lemma last_time_tag_wins_witness :
  minTime (parseNote ("<IdleAnimMinTime: 9>" ++ nl ++ minTimeTag " " "3.0" ++ nl
                        ++ "the end"))
  = Some (of_Z 3)
  /\ idleAnims (parseNote ("<IdleAnimMinTime: 9>" ++ nl ++ minTimeTag " " "3.0" ++ nl
                             ++ "the end")) = [].
Proof.
  destruct (last_time_tag_wins "<IdleAnimMinTime: 9>" "the end" " " "3.0" hero
              eq_refl eq_refl) as (H & _).
  rewrite H. split; reflexivity.
Defined.

(** ** A time without digits *)

Section NaNTime.

Variable p : Params.

Lemma spanDigits_not_digit (s : string) :
  headIn isDigit s = false -> spanDigits s = (EmptyString, s).
Proof.
  destruct s as [|a s]; [reflexivity|]. cbn [headIn spanDigits].
  intros H. rewrite H. reflexivity.
Qed.

Lemma isDot_not_digit (a : ascii) : isDot a = true -> isDigit a = false.
Proof.
  destruct a as [[] [] [] [] [] [] [] []]; vm_compute; congruence.
Qed.

Lemma headIn_dots (s : string) : allChars isDot s = true -> headIn isDigit s = false.
Proof.
  destruct s as [|a s]; [reflexivity|]. cbn [allChars headIn].
  intros H. apply andb_true_iff in H. apply isDot_not_digit. apply H.
Qed.

(** [parseFloat] of a run of dots is NaN. *)
Lemma parseFloat_dots (s : string) :
  allChars isDot s = true -> parseFloat s = S754_nan.
Proof.
  intros H. unfold parseFloat.
  rewrite (spanDigits_not_digit s (headIn_dots s H)).
  destruct s as [|a r]; [reflexivity|].
  cbn [allChars] in H. apply andb_true_iff in H. destruct H as [Ha Hr].
  unfold isDot in Ha. rewrite Ha.
  rewrite (spanDigits_not_digit r (headIn_dots r Hr)). reflexivity.
Qed.

Lemma updateIdle_nan_min (t : Tick) (c : Character) :
  idleMinTime c = S754_nan -> isIdling c = false ->
  idleMinTime (updateIdle p t c) = S754_nan
  /\ isIdling (updateIdle p t c) = false
  /\ characterName (updateIdle p t c) = characterName c
  /\ pattern (updateIdle p t c) = pattern c
  /\ direction (updateIdle p t c) = direction c.
Proof.
  intros Hm Hi. unfold updateIdle.
  destruct (moving t || (0 <? waitCount t)); [repeat split; assumption|].
  rewrite Hi. cbn [negb idleTimer idleMinTime withTimer]. rewrite Hm.
  change (ge (add (idleTimer c) frameTime) S754_nan) with false.
  repeat split; assumption.
Qed.

Lemma run_nan_min (ts : list Tick) (c : Character) :
  idleMinTime c = S754_nan -> isIdling c = false ->
  isIdling (run p ts c) = false
  /\ characterName (run p ts c) = characterName c
  /\ pattern (run p ts c) = pattern c
  /\ direction (run p ts c) = direction c.
Proof.
  revert c. induction ts as [|t ts IH]; intros c Hm Hi.
  - repeat split; assumption.
  - destruct (updateIdle_nan_min t c Hm Hi) as (Hm' & Hi' & Hn & Hp & Hd).
    change (run p (t :: ts) c) with (run p ts (updateIdle p t c)).
    destruct (IH (updateIdle p t c) Hm' Hi') as (H1 & H2 & H3 & H4).
    repeat split; congruence.
Qed.

End NaNTime.

(** X14. A tag [<IdleAnimMinTime: ...>] whose value consists of dots only is
    accepted by the pattern, and [parseFloat] makes NaN of it.  When it is the
    last tag of a note, the character keeps the animations of the note but
    its minimum time is NaN: the test [idleTimer >= idleMinTime] is false on
    every frame, and [updateIdle] never starts an animation nor changes the
    display, however long the character stands still. *)
Theorem dots_min_time_disables_idle
  (p : Params) (pre post ws ds : string) (ts : list Tick) (c : Character) :
  allChars isSpace ws = true -> allChars notNewline ws = true ->
  ds <> EmptyString -> allChars isDot ds = true ->
  allChars notLt post = true ->
  isIdling c = false ->
  idleAnimations (loadIdleNotetags (pre ++ nl ++ minTimeTag ws ds ++ nl ++ post) c)
  = idleAnims (parseNote pre)
  /\ idleMinTime (loadIdleNotetags (pre ++ nl ++ minTimeTag ws ds ++ nl ++ post) c)
     = S754_nan
  /\ isIdling (run p ts (loadIdleNotetags
                           (pre ++ nl ++ minTimeTag ws ds ++ nl ++ post) c)) = false
  /\ characterName (run p ts (loadIdleNotetags
                                (pre ++ nl ++ minTimeTag ws ds ++ nl ++ post) c))
     = characterName c
  /\ pattern (run p ts (loadIdleNotetags
                          (pre ++ nl ++ minTimeTag ws ds ++ nl ++ post) c))
     = pattern c.
Proof.
  intros Hws Hnl Hne Hd Hpost Hi.
  assert (Hdd : allChars isDigitOrDot ds = true).
  { apply (allChars_weaken isDot isDigitOrDot); [|exact Hd].
    intros a Ha. unfold isDigitOrDot. unfold isDot in Ha. rewrite Ha.
    apply orb_true_r. }
  assert (F : timeFields ws ds = true).
  { unfold timeFields. rewrite Hws, Hnl, Hdd.
    rewrite (allChars_headIn isDigitOrDot ds Hne Hdd). reflexivity. }
  assert (L : loadIdleNotetags (pre ++ nl ++ minTimeTag ws ds ++ nl ++ post) c
              = setCharacterIdleData (idleAnims (parseNote pre)) (Some S754_nan)
                                     (maxTime (parseNote pre)) c).
  { assert (P : parseNote (pre ++ nl ++ minTimeTag ws ds ++ nl ++ post)
                = mkNotetags (idleAnims (parseNote pre)) (Some S754_nan)
                             (maxTime (parseNote pre))).
    { rewrite (parseNote_line pre _ post (proj1 (timeTags_one_line ws ds F))).
      rewrite (parseLine_minTimeTag ws ds F), (parseFloat_dots ds Hd).
      apply fold_parseLine_without_lt. apply allChars_split_lines. exact Hpost. }
    unfold loadIdleNotetags. rewrite P. destruct pre; reflexivity. }
  rewrite L. split; [reflexivity|]. split; [reflexivity|].
  destruct (run_nan_min p ts
              (setCharacterIdleData (idleAnims (parseNote pre)) (Some S754_nan)
                                    (maxTime (parseNote pre)) c)
              eq_refl Hi) as (H1 & H2 & H3 & _).
  repeat split; assumption.
Qed.

Lemma dots_min_time_disables_idle_witness :
  idleAnimations (loadIdleNotetags
                    ("<IdleAnim: Hero_IdleBlink, 0, 2, 70>" ++ nl
                       ++ minTimeTag " " ".." ++ nl ++ "end") hero)
  = [mkIdleAnim "Hero_IdleBlink" 0 2 70]
  /\ isIdling (run defaultParams (repeat stillTick 700)
                   (loadIdleNotetags
                      ("<IdleAnim: Hero_IdleBlink, 0, 2, 70>" ++ nl
                         ++ minTimeTag " " ".." ++ nl ++ "end") hero)) = false.
Proof.
  destruct (dots_min_time_disables_idle defaultParams
              "<IdleAnim: Hero_IdleBlink, 0, 2, 70>" "end" " " ".."
              (repeat stillTick 700) hero eq_refl eq_refl)
    as (H1 & _ & H3 & _).
  - discriminate.
  - reflexivity.
  - reflexivity.
  - reflexivity.
  - split; [rewrite H1; reflexivity | exact H3].
Defined.

(** ** Event pages *)

Section EventPages.

Lemma loadComments_app (cmds1 cmds2 : list Command) (c : Character) :
  loadComments (cmds1 ++ cmds2) c = loadComments cmds2 (loadComments cmds1 c).
Proof. unfold loadComments. apply fold_left_app. Qed.

Lemma loadComments_cons (cmd : Command) (cmds : list Command) (c : Character) :
  loadComments (cmd :: cmds) c
  = loadComments cmds
      (if isComment cmd then loadIdleNotetags (cmdText cmd) c else c).
Proof. reflexivity. Qed.

Lemma loadComments_skipped (cmds : list Command) (c : Character) :
  Forall skipped cmds -> loadComments cmds c = c.
Proof.
  revert c. induction cmds as [|cmd cmds IH]; intros c H; [reflexivity|].
  inversion H as [|? ? Hs Hrest]; subst. rewrite loadComments_cons.
  destruct Hs as [Hs | Hs].
  - rewrite Hs. apply IH. exact Hrest.
  - rewrite Hs. destruct (isComment cmd); apply IH; exact Hrest.
Qed.

End EventPages.

(** X15. [setupPageSettings] loads every comment command of the page on its
    own, and each load replaces the list of animations: afterwards the
    character has exactly the definitions of the last comment command with a
    non-empty text, those of the commands before it are gone, while a time
    that this last text does not set keeps the value the earlier commands
    left.  A page without a list leaves what the engine's function
    produced. *)
Theorem last_comment_replaces_animations
  (engine : Character -> Character) (cmds1 cmds2 : list Command)
  (cmd : Command) (c : Character) :
  isComment cmd = true -> cmdText cmd <> EmptyString ->
  Forall skipped cmds2 ->
  idleAnimations (setupPageSettings engine (Some (cmds1 ++ cmd :: cmds2)%list) c)
  = idleAnims (parseNote (cmdText cmd))
  /\ idleMinTime (setupPageSettings engine (Some (cmds1 ++ cmd :: cmds2)%list) c)
     = match minTime (parseNote (cmdText cmd)) with
       | Some m => m
       | None => idleMinTime (loadComments cmds1 (engine c))
       end
  /\ idleMaxTime (setupPageSettings engine (Some (cmds1 ++ cmd :: cmds2)%list) c)
     = match maxTime (parseNote (cmdText cmd)) with
       | Some m => m
       | None => idleMaxTime (loadComments cmds1 (engine c))
       end
  /\ setupPageSettings engine None c = engine c.
Proof.
  intros Hc Hne Hskip. unfold setupPageSettings.
  rewrite loadComments_app, loadComments_cons, Hc.
  rewrite (loadComments_skipped cmds2 _ Hskip).
  destruct (cmdText cmd) as [|a s] eqn:E; [congruence|].
  unfold loadIdleNotetags. repeat split.
Qed.

Lemma last_comment_replaces_animations_witness :
  idleAnimations (setupPageSettings (fun c => c) (Some helpComment) hero) = []
  /\ idleMinTime (setupPageSettings (fun c => c) (Some helpComment) hero) = of_Z 4.
Proof.
  destruct (last_comment_replaces_animations (fun c => c)
              [mkCommand 108 "<IdleAnim: Hero_IdleBlink, 0, 2, 70>";
               mkCommand 408 "<IdleAnim: Hero_IdleStretch, 0, 2, 30>"]
              [] (mkCommand 408 "<IdleAnimMinTime: 4.0>") hero)
    as (H1 & H2 & _).
  - reflexivity.
  - discriminate.
  - constructor.
  - split.
    + exact H1.
    + exact H2.
Defined.

(** ** Notes in parts *)

Section Composition.

Lemma joinTags_noTags_r (a : Notetags) : joinTags a noTags = a.
Proof.
  destruct a as [l mn mx]. unfold joinTags. cbn [idleAnims minTime maxTime noTags].
  rewrite app_nil_r. reflexivity.
Qed.

Lemma joinTags_assoc (a b c : Notetags) :
  joinTags (joinTags a b) c = joinTags a (joinTags b c).
Proof.
  unfold joinTags. cbn [idleAnims minTime maxTime]. rewrite app_assoc.
  destruct (minTime c), (maxTime c); reflexivity.
Qed.

(** What a line adds does not depend on what was read before. *)
Lemma parseLine_joinTags (acc : Notetags) (line : string) :
  parseLine acc line = joinTags acc (parseLine noTags line).
Proof.
  unfold parseLine.
  destruct (search reMinTime (trim line)).
  { unfold joinTags. cbn [idleAnims minTime maxTime noTags].
    rewrite app_nil_r. reflexivity. }
  destruct (search reMaxTime (trim line)).
  { unfold joinTags. cbn [idleAnims minTime maxTime noTags].
    rewrite app_nil_r. reflexivity. }
  destruct (search reIdleAnim (trim line)); [|symmetry; apply joinTags_noTags_r].
  destruct (parseInt _); [|symmetry; apply joinTags_noTags_r].
  destruct (parseInt _); [|symmetry; apply joinTags_noTags_r].
  reflexivity.
Qed.

Lemma fold_parseLine_joinTags (lines : list string) :
  forall acc : Notetags,
    fold_left parseLine lines acc = joinTags acc (fold_left parseLine lines noTags).
Proof.
  induction lines as [|l lines IH]; intros acc; cbn [fold_left].
  - symmetry. apply joinTags_noTags_r.
  - rewrite (IH (parseLine acc l)), (IH (parseLine noTags l)).
    rewrite (parseLine_joinTags acc l). apply joinTags_assoc.
Qed.

End Composition.

(** X16. Parsing is compositional over the lines of a note: the tags of two
    texts joined by a line feed are the definitions of the first text
    followed by those of the second, in the order of the lines, and each time
    is the one set by the second text when it sets one and else the one set
    by the first. *)
Theorem parseNote_of_parts (pre post : string) :
  parseNote (pre ++ nl ++ post) = joinTags (parseNote pre) (parseNote post)
  /\ idleAnims (parseNote (pre ++ nl ++ post))
     = (idleAnims (parseNote pre) ++ idleAnims (parseNote post))%list.
Proof.
  assert (H : parseNote (pre ++ nl ++ post)
              = joinTags (parseNote pre) (parseNote post)).
  { unfold parseNote. rewrite split_lines_app, fold_left_app.
    apply fold_parseLine_joinTags. }
  split; [exact H | rewrite H; reflexivity].
Qed.

(** ** The case of the tag name *)

Section TagCase.

Lemma eq_ci_upper (a b : ascii) : eq_ci a b = true -> upper a = upper b.
Proof. unfold eq_ci. apply Ascii.eqb_eq. Qed.

Lemma eq_ci_notLt (a b : ascii) : eq_ci a b = true -> notLt a = notLt b.
Proof.
  intros H. unfold notLt, eq_ci. rewrite (eq_ci_upper a b H). reflexivity.
Qed.

Lemma ciEqual_notLt (s' s : string) :
  ciEqual s' s = true -> allChars notLt s = true -> allChars notLt s' = true.
Proof.
  revert s. induction s' as [|a s' IH]; intros [|b s] H Hs;
    cbn [ciEqual] in H; try discriminate; [reflexivity|].
  apply andb_true_iff in H. destruct H as [Hab Hr].
  cbn [allChars] in *. apply andb_true_iff in Hs. destruct Hs as [Hb Hs].
  rewrite (eq_ci_notLt a b Hab), Hb. exact (IH s Hr Hs).
Qed.

Lemma rmatch_lits_ci (p : string) :
  forall (p' : string) (r : regex) (rest : string) (caps : captures) (k : cont),
    ciEqual p' p = true ->
    rmatch (lits p r) (p' ++ rest) caps k = rmatch r rest caps k.
Proof.
  induction p as [|b p IH]; intros [|a p'] r rest caps k H;
    cbn [ciEqual] in H; try discriminate; [reflexivity|].
  apply andb_true_iff in H. destruct H as [Hab Hr].
  change (rmatch (lits (String b p) r) (String a p' ++ rest) caps k)
    with (if eq_ci a b then rmatch (lits p r) (p' ++ rest) caps k else None).
  rewrite Hab. apply IH. exact Hr.
Qed.

Lemma search_past_prefix (r : regex) (s1 s2 : string) :
  allChars notLt s1 = true ->
  search (Seq (Chr "<") r) (s1 ++ s2) = search (Seq (Chr "<") r) s2.
Proof.
  induction s1 as [|a s1 IH]; intros H; [reflexivity|].
  cbn [allChars] in H. apply andb_true_iff in H. destruct H as [Ha Hs].
  change (String a s1 ++ s2) with (String a (s1 ++ s2)).
  rewrite search_skip.
  - apply IH. exact Hs.
  - apply seq_chr_fail. unfold notLt in Ha. apply negb_true_iff. exact Ha.
Qed.

Lemma keptByTrimEnd_tail (a b : ascii) (p : string) :
  keptByTrimEnd (String a (String b p)) -> keptByTrimEnd (String b p).
Proof.
  unfold keptByTrimEnd. intros [_ Ht]. split; [discriminate|].
  change (trimEnd (String a (String b p)))
    with (match trimEnd (String b p) with
          | EmptyString => if isSpace a then EmptyString else String a EmptyString
          | r => String a r
          end) in Ht.
  destruct (trimEnd (String b p)) as [|x y].
  - destruct (isSpace a); discriminate.
  - congruence.
Qed.

Lemma trimEnd_cons (a : ascii) (s : string) :
  trimEnd (String a s)
  = match trimEnd s with
    | EmptyString => if isSpace a then EmptyString else String a EmptyString
    | r => String a r
    end.
Proof. reflexivity. Qed.

Lemma trimEnd_after_kept (p body : string) :
  keptByTrimEnd p -> trimEnd (p ++ body) = p ++ trimEnd body.
Proof.
  induction p as [|a p IH]; intros K.
  - destruct K as [Hne _]. congruence.
  - change (String a p ++ body) with (String a (p ++ body)).
    rewrite trimEnd_cons.
    destruct p as [|b p'].
    + destruct K as [_ Ht]. rewrite trimEnd_cons in Ht.
      change (trimEnd EmptyString) with EmptyString in Ht.
      change (EmptyString ++ body) with body.
      destruct (isSpace a); [discriminate|].
      destruct (trimEnd body); reflexivity.
    + rewrite (IH (keptByTrimEnd_tail a b p' K)). reflexivity.
Qed.

Variable w : string.

Hypothesis spelled : ciEqual w "IdleAnim" = true.

Lemma tag_name_without_lt : allChars notLt (w ++ ":") = true.
Proof.
  rewrite allChars_app, (ciEqual_notLt w "IdleAnim" spelled eq_refl). reflexivity.
Qed.

Lemma trim_spelled_tag (body : string) :
  trim ("<" ++ w ++ ":" ++ body) = "<" ++ w ++ ":" ++ trimEnd body.
Proof.
  unfold trim.
  change (trimStart ("<" ++ w ++ ":" ++ body)) with ("<" ++ w ++ ":" ++ body).
  pose proof (trimEnd_after_kept ("<" ++ w ++ ":") body) as T.
  rewrite !string_app_assoc in T. apply T.
  apply (keptByTrimEnd_app "<" (w ++ ":")). apply (keptByTrimEnd_app w ":").
  split; [discriminate | reflexivity].
Qed.

(** On a line that starts with the tag name in any case, a pattern that
    starts with [<] matches at the first character or inside the rest. *)
Lemma search_spelled_tag (r : regex) (body : string) :
  search (Seq (Chr "<") r) ("<" ++ w ++ ":" ++ body)
  = match rmatch (Seq (Chr "<") r) ("<" ++ w ++ ":" ++ body) noCaptures accept with
    | Some caps => Some caps
    | None => search (Seq (Chr "<") r) body
    end.
Proof.
  change ("<" ++ w ++ ":" ++ body) with (String "<" (w ++ ":" ++ body)).
  cbn [search].
  destruct (rmatch (Seq (Chr "<") r) (String "<" (w ++ ":" ++ body)) noCaptures accept);
    [reflexivity|].
  rewrite <- string_app_assoc. apply search_past_prefix.
  exact tag_name_without_lt.
Qed.

Lemma spelled_tag_not_MinTime (body : string) :
  rmatch reMinTime ("<" ++ w ++ ":" ++ body) noCaptures accept = None.
Proof.
  change reMinTime with
    (lits "<IdleAnim" (Seq (Chr "M") (lits "inTime:"
       (Seq (Star isSpace) (Seq (Group 1 (Plus isDigitOrDot)) (Chr ">")))))).
  change ("<" ++ w ++ ":" ++ body) with (("<" ++ w) ++ String ":" body).
  rewrite rmatch_lits_ci.
  - apply seq_chr_fail. reflexivity.
  - cbn [append ciEqual]. rewrite eq_ci_refl. exact spelled.
Qed.

Lemma spelled_tag_not_MaxTime (body : string) :
  rmatch reMaxTime ("<" ++ w ++ ":" ++ body) noCaptures accept = None.
Proof.
  change reMaxTime with
    (lits "<IdleAnim" (Seq (Chr "M") (lits "axTime:"
       (Seq (Star isSpace) (Seq (Group 1 (Plus isDigitOrDot)) (Chr ">")))))).
  change ("<" ++ w ++ ":" ++ body) with (("<" ++ w) ++ String ":" body).
  rewrite rmatch_lits_ci.
  - apply seq_chr_fail. reflexivity.
  - cbn [append ciEqual]. rewrite eq_ci_refl. exact spelled.
Qed.

Lemma ciEqual_app (a b c d : string) :
  ciEqual a b = true -> ciEqual c d = true -> ciEqual (a ++ c) (b ++ d) = true.
Proof.
  revert b. induction a as [|x a IH]; intros [|y b] H1 H2;
    cbn [ciEqual] in H1; try discriminate; [exact H2|].
  apply andb_true_iff in H1. destruct H1 as [Hxy Hab].
  cbn [append ciEqual]. rewrite Hxy. exact (IH b Hab H2).
Qed.

Lemma spelled_tag_IdleAnim (body : string) :
  rmatch reIdleAnim ("<" ++ w ++ ":" ++ body) noCaptures accept
  = rmatch reIdleAnim ("<IdleAnim:" ++ body) noCaptures accept.
Proof.
  unfold reIdleAnim. rewrite rmatch_lits.
  replace ("<" ++ w ++ ":" ++ body) with (("<" ++ w ++ ":") ++ body)
    by (rewrite !string_app_assoc; reflexivity).
  apply rmatch_lits_ci.
  apply (ciEqual_app "<" "<" (w ++ ":") "IdleAnim:"); [reflexivity|].
  apply (ciEqual_app w "IdleAnim" ":" ":"); [exact spelled | reflexivity].
Qed.

Lemma search_from_lt (q r : regex) (body : string) :
  q = Seq (Chr "<") r ->
  search q ("<" ++ w ++ ":" ++ body)
  = match rmatch q ("<" ++ w ++ ":" ++ body) noCaptures accept with
    | Some caps => Some caps
    | None => search q body
    end.
Proof. intros ->. apply search_spelled_tag. Qed.

Lemma search_MinTime_spelled (body : string) :
  search reMinTime ("<" ++ w ++ ":" ++ body) = search reMinTime body.
Proof.
  rewrite (search_from_lt reMinTime _ body eq_refl), spelled_tag_not_MinTime.
  reflexivity.
Qed.

Lemma search_MaxTime_spelled (body : string) :
  search reMaxTime ("<" ++ w ++ ":" ++ body) = search reMaxTime body.
Proof.
  rewrite (search_from_lt reMaxTime _ body eq_refl), spelled_tag_not_MaxTime.
  reflexivity.
Qed.

Lemma search_IdleAnim_spelled (body : string) :
  search reIdleAnim ("<" ++ w ++ ":" ++ body)
  = match rmatch reIdleAnim ("<IdleAnim:" ++ body) noCaptures accept with
    | Some caps => Some caps
    | None => search reIdleAnim body
    end.
Proof.
  rewrite (search_from_lt reIdleAnim _ body eq_refl), spelled_tag_IdleAnim.
  reflexivity.
Qed.

(** The three searches of [parseLine] on the trimmed line. *)
Lemma parseLine_spelled (acc : Notetags) (body : string) :
  parseLine acc ("<" ++ w ++ ":" ++ body)
  = match search reMinTime (trimEnd body) with
    | Some caps =>
        mkNotetags (idleAnims acc) (Some (parseFloat (dollar caps 1))) (maxTime acc)
    | None =>
    match search reMaxTime (trimEnd body) with
    | Some caps =>
        mkNotetags (idleAnims acc) (minTime acc) (Some (parseFloat (dollar caps 1)))
    | None =>
    match
      match rmatch reIdleAnim ("<IdleAnim:" ++ trimEnd body) noCaptures accept with
      | Some caps => Some caps
      | None => search reIdleAnim (trimEnd body)
      end
    with
    | Some caps =>
        match parseInt (dollar caps 2), parseInt (dollar caps 3) with
        | Some start, Some end_ =>
            pushAnim (mkIdleAnim (trim (dollar caps 1)) start end_
                                 (orHundred (parseInt (dollar caps 4)))) acc
        | _, _ => acc
        end
    | None => acc
    end end end.
Proof.
  unfold parseLine.
  rewrite trim_spelled_tag, search_MinTime_spelled, search_MaxTime_spelled,
    search_IdleAnim_spelled.
  reflexivity.
Qed.

End TagCase.

(** X17. The tag name is recognised in any case of its letters: a line
    [<idleanim: ...>], [<IDLEANIM: ...>] or any other spelling of
    [IdleAnim] that differs only in case is parsed exactly as the same line
    with the name spelled [IdleAnim], whatever follows the colon. *)
Theorem tag_name_case_is_ignored (acc : Notetags) (w body : string) :
  ciEqual w "IdleAnim" = true ->
  parseLine acc ("<" ++ w ++ ":" ++ body) = parseLine acc ("<IdleAnim:" ++ body).
Proof.
  intros H.
  rewrite (parseLine_spelled w H acc body).
  exact (eq_sym (parseLine_spelled "IdleAnim" eq_refl acc body)).
Qed.

Lemma tag_name_case_is_ignored_witness :
  parseLine noTags "<idleANIM: Foo, 0, 2>" = pushAnim (mkIdleAnim "Foo" 0 2 100) noTags.
Proof.
  refine (eq_trans
            (tag_name_case_is_ignored noTags "idleANIM" " Foo, 0, 2>" eq_refl) _).
  reflexivity.
Defined.

(** ** Two tags on one line *)

Section TwoTags.

Variables ws1 name ws2 d1 ws3 d2 gap ws ds : string.

Hypothesis animFields : tagFields ws1 name ws2 d1 ws3 d2 = true.
Hypothesis numberFields : timeFields ws ds = true.
Hypothesis plainGap : allChars notLt gap = true.

Lemma keptByTrimEnd_minTimeTag : keptByTrimEnd (minTimeTag ws ds).
Proof.
  unfold minTimeTag.
  apply (keptByTrimEnd_app "<IdleAnimMinTime:" (ws ++ ds ++ ">")).
  apply (keptByTrimEnd_app ws (ds ++ ">")).
  apply (keptByTrimEnd_app ds ">").
  split; [discriminate | reflexivity].
Qed.

Lemma two_tags_regroup :
  animTag ws1 name ws2 d1 ws3 d2 (">" ++ gap ++ minTimeTag ws ds)
  = "<IdleAnim:"
      ++ (ws1 ++ name ++ "," ++ ws2 ++ d1 ++ "," ++ ws3 ++ d2 ++ ">" ++ gap)
      ++ minTimeTag ws ds.
Proof. unfold animTag. rewrite !string_app_assoc. reflexivity. Qed.

Lemma two_tags_trim :
  trim (animTag ws1 name ws2 d1 ws3 d2 (">" ++ gap ++ minTimeTag ws ds))
  = animTag ws1 name ws2 d1 ws3 d2 (">" ++ gap ++ minTimeTag ws ds).
Proof.
  unfold trim.
  change (trimStart (animTag ws1 name ws2 d1 ws3 d2 (">" ++ gap ++ minTimeTag ws ds)))
    with (animTag ws1 name ws2 d1 ws3 d2 (">" ++ gap ++ minTimeTag ws ds)).
  rewrite two_tags_regroup.
  apply (keptByTrimEnd_app "<IdleAnim:").
  apply keptByTrimEnd_app. exact keptByTrimEnd_minTimeTag.
Qed.

Lemma two_tags_search :
  search reMinTime (animTag ws1 name ws2 d1 ws3 d2 (">" ++ gap ++ minTimeTag ws ds))
  = Some (setCapture 1 ds noCaptures).
Proof.
  rewrite two_tags_regroup. cbn [append].
  do 10 (rewrite search_skip by (vm_compute; reflexivity)).
  change reMinTime with (Seq (Chr "<") (lits "IdleAnimMinTime:"
    (Seq (Star isSpace) (Seq (Group 1 (Plus isDigitOrDot)) (Chr ">"))))).
  rewrite search_past_prefix.
  - apply (search_minTimeTag ws ds numberFields).
  - pose proof (anim_tag_without_lt ws1 name ws2 d1 ws3 d2 animFields (">" ++ gap))
      as H.
    apply H. cbn [append allChars]. rewrite plainGap. reflexivity.
Qed.

End TwoTags.

(** X18. A line is matched against the three patterns in turn and only the
    first that matches is used: when a well-formed [<IdleAnim: ...>] tag is
    followed on the same line by an [<IdleAnimMinTime: ...>] tag, the line
    sets the minimum time and the definition is not added. *)
Theorem time_tag_hides_definition
  (acc : Notetags) (ws1 name ws2 d1 ws3 d2 gap ws ds : string) :
  tagFields ws1 name ws2 d1 ws3 d2 = true ->
  timeFields ws ds = true ->
  allChars notLt gap = true ->
  parseLine acc (animTag ws1 name ws2 d1 ws3 d2 (">" ++ gap ++ minTimeTag ws ds))
  = mkNotetags (idleAnims acc) (Some (parseFloat ds)) (maxTime acc).
Proof.
  intros F T G. unfold parseLine.
  rewrite (two_tags_trim ws1 name ws2 d1 ws3 d2 gap ws ds).
  rewrite (two_tags_search ws1 name ws2 d1 ws3 d2 gap ws ds F T G).
  reflexivity.
Qed.

Lemma time_tag_hides_definition_witness :
  parseLine noTags "<IdleAnim: Foo, 0, 2> <IdleAnimMinTime: 3.0>"
  = mkNotetags [] (Some (of_Z 3)) None.
Proof.
  exact (time_tag_hides_definition noTags " " "Foo" " " "0" " " "2" " " " " "3.0"
           eq_refl eq_refl eq_refl).
Defined.
